(** * diamond_3js: orbit camera controller and model swapping (src/main.ts)

    A shallow embedding of the control logic of [src/main.ts]: the mouse and
    wheel handlers, the per-frame [animate] callback and the asynchronous
    [loadModel] function, together with the properties the design document
    states about them; then [createCheckerboardTexture], [init] and [main],
    with further properties read off the code.

    Modelling conventions.
    - In the handlers a JavaScript [number] is a real number ([R]):
      arithmetic is exact, there is no rounding, no [NaN] and no infinity.
      [Math.max], [Math.min] and [Math.PI] are [Rmax], [Rmin] and [PI].  A
      quotient by zero, which is an infinity or [NaN] in JavaScript, is
      some real number here; the statements on the limits of the poses
      assume a viewport whose height is not 0 when a move is handled.
    - The damping of [animate], whose behaviour over many frames depends on
      rounding, is also given in IEEE 754 binary64 arithmetic ([Double],
      [lerp64], [animate64]): finite doubles as dyadic rationals, every
      operation rounded to nearest, ties to even.
    - The module-scoped [let]/[const] variables of the file become the fields
      of a record that every handler takes and returns.
    - Values read from the browser at the time a handler runs
      ([window.innerHeight]) are arguments of the handler.
    - An [async] function is split at its [await]: the part that runs when the
      function is called, and the continuation that runs when the awaited
      promise settles. *)

From Stdlib Require Import Reals Lra Lia List String Bool Arith ZArith.
Import ListNotations.

Open Scope R_scope.

(** ** The parts of three.js the handlers call *)

Module MathUtils.

(** [THREE.MathUtils.lerp(x, y, t)]. *)
Definition lerp (x y t : R) : R := (1 - t) * x + t * y.

End MathUtils.

(** [THREE.Spherical]: [radius], polar angle [phi], azimuth [theta]. *)
Record Spherical : Type := mkSpherical {
  radius : R;
  phi : R;
  theta : R
}.

(** [THREE.Vector3]. *)
Record Vector3 : Type := mkVector3 { vx : R; vy : R; vz : R }.

(** [Vector3.setFromSpherical(s)]. *)
Definition setFromSpherical (s : Spherical) : Vector3 :=
  let sinPhiRadius := sin (phi s) * radius s in
  mkVector3 (sinPhiRadius * sin (theta s))
            (cos (phi s) * radius s)
            (sinPhiRadius * cos (theta s)).

(** ** Camera control state *)

Record Point : Type := mkPoint { x : R; y : R }.

(** The module-scoped variables of the camera control:
    [isDragging], [previousMousePosition], [spherical], [targetSpherical],
    and the position of [camera]. *)
Record Controller : Type := mkController {
  isDragging : bool;
  previousMousePosition : Point;
  spherical : Spherical;
  targetSpherical : Spherical;
  cameraPosition : Vector3
}.

Definition dampingFactor : R := 0.10.

(** The fields of a DOM [MouseEvent] and [WheelEvent] the handlers read. *)
Record MouseEvent : Type := mkMouseEvent {
  button : Z;
  clientX : R;
  clientY : R
}.

Record WheelEvent : Type := mkWheelEvent { deltaY : R }.

(** ** The handlers *)

(** [animate]: the rendering itself ([camera.lookAt], [renderer.render])
    changes none of the variables above and is left out. *)
Definition animate (c : Controller) : Controller :=
  let s := spherical c in
  let t := targetSpherical c in
  let theta' := MathUtils.lerp (theta s) (theta t) dampingFactor in
  let phi' := MathUtils.lerp (phi s) (phi t) dampingFactor in
  let radius' := MathUtils.lerp (radius s) (radius t) dampingFactor in
  let s' := mkSpherical radius' phi' theta' in
  mkController (isDragging c) (previousMousePosition c) s'
               (targetSpherical c) (setFromSpherical s').

Definition onMouseDown (event : MouseEvent) (c : Controller) : Controller :=
  if Z.eqb (button event) 0 then
    mkController true (mkPoint (clientX event) (clientY event))
                 (spherical c) (targetSpherical c) (cameraPosition c)
  else c.

Definition rotationSpeed : R := 2.
Definition minPolarAngle : R := 0.05.
Definition maxPolarAngle : R := PI - 0.05.

(** [innerHeight] is [window.innerHeight] when the event is handled. *)
Definition onMouseMove (innerHeight : R) (event : MouseEvent) (c : Controller)
  : Controller :=
  if negb (isDragging c) then c
  else
    let deltaX := clientX event - x (previousMousePosition c) in
    let deltaY := clientY event - y (previousMousePosition c) in
    let t := targetSpherical c in
    let theta1 := theta t - deltaX * rotationSpeed * (PI / innerHeight) in
    let phi1 := phi t - deltaY * rotationSpeed * (PI / innerHeight) in
    let phi2 := Rmax minPolarAngle (Rmin maxPolarAngle phi1) in
    mkController (isDragging c)
                 (mkPoint (clientX event) (clientY event))
                 (spherical c)
                 (mkSpherical (radius t) phi2 theta1)
                 (cameraPosition c).

Definition onMouseUp (c : Controller) : Controller :=
  mkController false (previousMousePosition c) (spherical c)
               (targetSpherical c) (cameraPosition c).

Definition zoomSpeed : R := 0.020.
Definition minRadius : R := 1.
Definition maxRadius : R := 20.

Definition onMouseWheel (event : WheelEvent) (c : Controller) : Controller :=
  let t := targetSpherical c in
  let radius1 := radius t + deltaY event * zoomSpeed in
  let radius2 := Rmax minRadius (Rmin maxRadius radius1) in
  mkController (isDragging c) (previousMousePosition c) (spherical c)
               (mkSpherical radius2 (phi t) (theta t))
               (cameraPosition c).

(** ** The controller's operations, as the design document names them *)

(** A press of the primary button at [(px, py)]. *)
Definition onDragStart (px py : R) : Controller -> Controller :=
  onMouseDown (mkMouseEvent 0 px py).

(** The pointer moved to [(px, py)]; [onMouseMove] does not read [button]. *)
Definition onDragMove (innerHeight : R) (px py : R) : Controller -> Controller :=
  onMouseMove innerHeight (mkMouseEvent 0 px py).

Definition onDragEnd : Controller -> Controller := onMouseUp.

Definition onWheel (dy : R) : Controller -> Controller :=
  onMouseWheel (mkWheelEvent dy).

Definition tick : Controller -> Controller := animate.

(** ** Event sequences *)

(** What the browser delivers to the listeners registered in [init]:
    [mousedown], [mousemove], [mouseup]/[mouseleave], [wheel], and a frame
    of the animation loop. *)
Inductive Input : Type :=
| MouseDown (event : MouseEvent)
| MouseMove (innerHeight : R) (event : MouseEvent)
| MouseUp
| Wheel (event : WheelEvent)
| Frame.

Definition handle (c : Controller) (i : Input) : Controller :=
  match i with
  | MouseDown e => onMouseDown e c
  | MouseMove h e => onMouseMove h e c
  | MouseUp => onMouseUp c
  | Wheel e => onMouseWheel e c
  | Frame => animate c
  end.

(** Inputs are handled in arrival order. *)
Definition run (c : Controller) (inputs : list Input) : Controller :=
  fold_left handle inputs c.


(** The clamps of the data model: the polar angle and the radius of a pose
    are within their limits. *)
Definition pose_ok (s : Spherical) : Prop :=
  minPolarAngle <= phi s <= maxPolarAngle /\
  minRadius <= radius s <= maxRadius.

Definition controller_ok (c : Controller) : Prop :=
  pose_ok (targetSpherical c) /\ pose_ok (spherical c).

(** The viewport has a height when a pointer move is handled:
    [window.innerHeight] is not 0, so that [Math.PI / window.innerHeight]
    is a number. *)
Definition viewport_ok (i : Input) : Prop :=
  match i with
  | MouseMove innerHeight _ => innerHeight <> 0
  | _ => True
  end.

(** ** What [init] does to the camera control *)

(** [THREE.MathUtils.clamp(value, min, max)]. *)
Definition clamp (value lo hi : R) : R := Rmax lo (Rmin hi value).

(** [Math.atan2(a, b)], the angle of the point with abscissa [b] and
    ordinate [a]; the signs of zeros are not told apart. *)
Definition atan2 (a b : R) : R :=
  if Rlt_dec 0 b then atan (a / b)
  else if Rlt_dec b 0 then
    (if Rle_dec 0 a then atan (a / b) + PI else atan (a / b) - PI)
  else if Rlt_dec 0 a then PI / 2
  else if Rlt_dec a 0 then - (PI / 2)
  else 0.

(** [Spherical.setFromCartesianCoords(cx, cy, cz)]. *)
Definition setFromCartesianCoords (cx cy cz : R) : Spherical :=
  let r := sqrt (cx * cx + cy * cy + cz * cz) in
  if Req_dec_T r 0 then mkSpherical r 0 0
  else mkSpherical r (acos (clamp (cy / r) (-1) 1)) (atan2 cx cz).

(** [Spherical.setFromVector3(v)]. *)
Definition setFromVector3 (v : Vector3) : Spherical :=
  setFromCartesianCoords (vx v) (vy v) (vz v).

(** [camera.position.set(0, 2, 5)]. *)
Definition cameraStart : Vector3 := mkVector3 0 2 5.

(** The camera control once [init] has run
    [spherical.setFromVector3(camera.position)] and
    [targetSpherical.copy(spherical)]; [isDragging] and
    [previousMousePosition] have the values of their declarations. *)
Definition initialController : Controller :=
  let s := setFromVector3 cameraStart in
  mkController false (mkPoint 0 0) s (mkSpherical (radius s) (phi s) (theta s))
               cameraStart.

(** ** Notions used to state properties of the camera control *)

Definition isFrame (i : Input) : bool :=
  match i with
  | Frame => true
  | _ => false
  end.

(** The inputs with the frames of the animation loop left out. *)
Definition withoutFrames (inputs : list Input) : list Input :=
  filter (fun i => negb (isFrame i)) inputs.

(** What the mouse and wheel handlers read and write: the drag flag, the
    drag anchor and the target pose. *)
Definition inputState (c : Controller) : bool * Point * Spherical :=
  (isDragging c, previousMousePosition c, targetSpherical c).



(** ** Sample states and inputs of the camera control *)

(** A pose within the limits, and inputs with deltas far out of range. *)
Definition restingController : Controller :=
  mkController false (mkPoint 0 0) (mkSpherical 5 1 0) (mkSpherical 5 1 0)
               (mkVector3 0 0 5).

Definition wildInputs : list Input :=
  [ MouseDown (mkMouseEvent 0 100 100);
    MouseMove 800 (mkMouseEvent 0 150 (-1000000));
    Frame;
    Wheel (mkWheelEvent 1000000);
    Frame;
    MouseMove 800 (mkMouseEvent 0 150 1000000);
    Wheel (mkWheelEvent (-1000000));
    MouseUp;
    Frame ].

(** The claim of C8 as the design document words it: a press while the
    drag is active changes nothing. *)
Definition repress_ignored (px py : R) (c : Controller) : Prop :=
  isDragging c = true -> onDragStart px py c = c.

(** A drag in progress that was anchored at (0, 0). *)
Definition draggingController : Controller :=
  mkController true (mkPoint 0 0) (mkSpherical 5 1 0) (mkSpherical 5 1 0)
               (mkVector3 0 0 5).

(** ** JavaScript numbers as IEEE 754 doubles *)

(** A finite double is [mantissa * 2^exponent].  A [Double] with a longer
    mantissa is the exact result of an operation before it is rounded;
    infinities, [NaN] and the sign of zero are left out. *)
Record Double : Type := mkDouble { mantissa : Z; exponent : Z }.

Definition pow2 (e : Z) : R := powerRZ 2 e.

(** The real number a double stands for. *)
Definition D2R (a : Double) : R := IZR (mantissa a) * pow2 (exponent a).

(** Exact product, sum and opposite of two dyadic numbers. *)
Definition exact_mul (a b : Double) : Double :=
  mkDouble (mantissa a * mantissa b) (exponent a + exponent b).

Definition align (a : Double) (e : Z) : Z :=
  (mantissa a * 2 ^ (exponent a - e))%Z.

Definition exact_add (a b : Double) : Double :=
  let e := Z.min (exponent a) (exponent b) in
  mkDouble (align a e + align b e) e.

Definition exact_opp (a : Double) : Double :=
  mkDouble (- mantissa a) (exponent a).

(** [A / 2^k] rounded to the nearest integer, ties to the even one. *)
Definition nearest_even (A k : Z) : Z :=
  let q := (A / 2 ^ k)%Z in
  let r := (A mod 2 ^ k)%Z in
  let half := (2 ^ (k - 1))%Z in
  if (r <? half)%Z then q
  else if (half <? r)%Z then (q + 1)%Z
  else if Z.even q then q else (q + 1)%Z.

(** Rounding to binary64: the mantissa is cut to 53 bits, or to fewer
    where the exponent would go below -1074 (subnormal numbers).  Overflow
    to an infinity is not modelled: the statements bound the magnitudes. *)
Definition round64 (a : Double) : Double :=
  let m := mantissa a in
  let e := exponent a in
  let n := (Z.log2 (Z.abs m) + 1)%Z in
  let k := Z.max (n - 53) (-1074 - e) in
  if (k <=? 0)%Z then a
  else mkDouble (Z.sgn m * nearest_even (Z.abs m) k) (e + k).

(** The operators [*], [+] and [-] of JavaScript on finite numbers. *)
Definition fmul (a b : Double) : Double := round64 (exact_mul a b).
Definition fadd (a b : Double) : Double := round64 (exact_add a b).
Definition fsub (a b : Double) : Double := round64 (exact_add a (exact_opp b)).

Definition one64 : Double := mkDouble 1 0.

(** [THREE.MathUtils.lerp(x, y, t)], that is [(1 - t) * x + t * y], with
    each of its four operations rounded. *)
Definition lerp64 (x y t : Double) : Double :=
  fadd (fmul (fsub one64 t) x) (fmul t y).

(** The double that the literal [0.10] denotes, and [1 - 0.10] as the
    subtraction of doubles gives it. *)
Definition dampingFactor64 : Double := mkDouble 3602879701896397 (-55).
Definition ninth64 : Double := mkDouble 8106479329266893 (-53).

(** [THREE.Spherical] with double fields. *)
Record Spherical64 : Type := mkSpherical64 {
  radius64 : Double;
  phi64 : Double;
  theta64 : Double
}.


(** The three assignments of [animate] to [spherical], in the order of the
    source, given [spherical] and [targetSpherical]; the camera placement
    that follows them is in [animate] above. *)
Definition animate64 (current target : Spherical64) : Spherical64 :=
  let theta' := lerp64 (theta64 current) (theta64 target) dampingFactor64 in
  let phi' := lerp64 (phi64 current) (phi64 target) dampingFactor64 in
  let radius' := lerp64 (radius64 current) (radius64 target) dampingFactor64 in
  mkSpherical64 radius' phi' theta'.

(** [n] frames with no input in between: [targetSpherical] stays as it
    is. *)
Definition ticks64 (n : nat) (current target : Spherical64) : Spherical64 :=
  Nat.iter n (fun s => animate64 s target) current.


(** The radius starts at 11 and chases a target of 1. *)
Definition zooming64 : Spherical64 :=
  mkSpherical64 (mkDouble 11 0) (mkDouble 1 0) (mkDouble 0 0).
Definition zoomed64 : Spherical64 :=
  mkSpherical64 (mkDouble 1 0) (mkDouble 1 0) (mkDouble 0 0).

Definition stalledRadius : Double := mkDouble 4503599627370503 (-52).

(** ** The scene graph *)

#[local] Set Warnings "-register-all".

Close Scope R_scope.

(** Materials are told apart by what [loadModel] needs: the shared
    [diamondMaterial], the material of the checkerboard plane, and the
    materials a loaded file brings along. *)
Inductive Material : Type :=
| DiamondMaterial
| PlaneMaterial
| FileMaterial (n : nat).

(** [THREE.Object3D]: a [THREE.Mesh] carries a material, every other node
    is a [THREE.Group].  [id] is the object's identity (three.js gives every
    object its own [id]). *)
Inductive Object3D : Type :=
| Mesh (id : nat) (material : Material) (children : list Object3D)
| Group (id : nat) (children : list Object3D).

Definition object_id (o : Object3D) : nat :=
  match o with
  | Mesh i _ _ => i
  | Group i _ => i
  end.

Definition isGroup (o : Object3D) : bool :=
  match o with
  | Mesh _ _ _ => false
  | Group _ _ => true
  end.

(** [o.traverse(child => { if (child instanceof THREE.Mesh)
                             child.material = m })]. *)
Fixpoint traverse_setMaterial (m : Material) (o : Object3D) : Object3D :=
  match o with
  | Mesh i _ cs => Mesh i m (map (traverse_setMaterial m) cs)
  | Group i cs => Group i (map (traverse_setMaterial m) cs)
  end.

(** [Object3D.remove(o)] on a list of children: the child that is [o]
    (the same object) is spliced out; nothing happens when there is none. *)
Fixpoint children_remove (o : Object3D) (cs : list Object3D) : list Object3D :=
  match cs with
  | [] => []
  | c :: rest =>
      if Nat.eqb (object_id c) (object_id o) then rest
      else c :: children_remove o rest
  end.

(** [Object3D.add(o)]: [o] leaves its parent, here the scene itself if it
    is one of its children, and is pushed at the end. *)
Definition children_add (o : Object3D) (cs : list Object3D) : list Object3D :=
  children_remove o cs ++ [o].

(** What [loader.loadAsync] fulfils with: [gltf.scene] is a [THREE.Group]. *)
Record GLTF : Type := mkGLTF {
  gltf_scene_id : nat;
  gltf_scene_children : list Object3D
}.

Definition gltf_scene (g : GLTF) : Object3D :=
  Group (gltf_scene_id g) (gltf_scene_children g).

(** A value thrown or used as a rejection reason. *)
Definition JsError : Type := string.

(** ** The variables [loadModel] works on *)

(** [diamond], the children of [scene], and the calls of [console.error]
    so far (message and second argument), oldest first. *)
Record World : Type := mkWorld {
  diamond : option Object3D;
  sceneChildren : list Object3D;
  consoleErrors : list (string * JsError)
}.

(** ** Statements that may throw *)

Inductive Completion (A : Type) : Type :=
| Normal (a : A)
| Throw (e : JsError).
Arguments Normal {A} a.
Arguments Throw {A} e.

Definition Exec (A : Type) : Type := World -> Completion A * World.

Definition ret {A} (a : A) : Exec A := fun w => (Normal a, w).

Definition bind {A B} (m : Exec A) (k : A -> Exec B) : Exec B :=
  fun w =>
    match m w with
    | (Normal a, w') => k a w'
    | (Throw e, w') => (Throw e, w')
    end.

Definition throw {A} (e : JsError) : Exec A := fun w => (Throw e, w).

(** [try { body } catch (error) { handler }]. *)
Definition try_catch {A} (body : Exec A) (handler : JsError -> Exec A) : Exec A :=
  fun w =>
    match body w with
    | (Normal a, w') => (Normal a, w')
    | (Throw e, w') => handler e w'
    end.

Notation "x <- m ;; k" := (bind m (fun x => k))
  (at level 61, m at next level, right associativity).
Notation "m ;; k" := (bind m (fun _ => k))
  (at level 61, right associativity).

(** How an awaited promise settled. *)
Inductive Settled (A : Type) : Type :=
| Fulfilled (a : A)
| Rejected (e : JsError).
Arguments Fulfilled {A} a.
Arguments Rejected {A} e.

(** [await p] once [p] has settled: its value, or its reason thrown. *)
Definition await {A} (p : Settled A) : Exec A :=
  match p with
  | Fulfilled a => ret a
  | Rejected e => throw e
  end.

Definition read_diamond : Exec (option Object3D) :=
  fun w => (Normal (diamond w), w).

Definition write_diamond (o : Object3D) : Exec unit :=
  fun w => (Normal tt, mkWorld (Some o) (sceneChildren w) (consoleErrors w)).

Definition scene_remove (o : Object3D) : Exec unit :=
  fun w => (Normal tt,
            mkWorld (diamond w) (children_remove o (sceneChildren w))
                    (consoleErrors w)).

Definition scene_add (o : Object3D) : Exec unit :=
  fun w => (Normal tt,
            mkWorld (diamond w) (children_add o (sceneChildren w))
                    (consoleErrors w)).

Definition console_error (message : string) (error : JsError) : Exec unit :=
  fun w => (Normal tt,
            mkWorld (diamond w) (sceneChildren w)
                    (consoleErrors w ++ [(message, error)])).

(** ** [loadModel] *)

(** The part of [loadModel(modelUrl)] that runs when it is called, up to
    [await loader.loadAsync(modelUrl)]. *)
Definition loadModel_call (modelUrl : string) : Exec unit :=
  d <- read_diamond ;;
  match d with
  | Some o => scene_remove o
  | None => ret tt
  end.

(** The rest of [loadModel(modelUrl)], run when the promise of
    [loader.loadAsync(modelUrl)] has settled with [loaded]. *)
Definition loadModel_resume (modelUrl : string) (loaded : Settled GLTF)
  : Exec unit :=
  try_catch
    (gltf <- await loaded ;;
     write_diamond (gltf_scene gltf) ;;
     d <- read_diamond ;;
     match d with
     | Some o =>
         let o' := traverse_setMaterial DiamondMaterial o in
         write_diamond o' ;;
         scene_add o'
     | None => throw "TypeError: diamond is null"%string
     end)
    (fun error =>
       console_error
         ("An error happened while loading the model: " ++ modelUrl)%string
         error).

(** ** Calls of [loadModel] in flight *)

(** The promise an [async] function returned settles with how its body
    completed. *)
Definition settle {A} (c : Completion A) : Settled A :=
  match c with
  | Normal a => Fulfilled a
  | Throw e => Rejected e
  end.

(** The state of the page as far as [loadModel] goes: the variables, the
    calls of [loadModel] suspended at their [await] (call number and
    [modelUrl]), and for every call so far, in call order, the promise it
    returned ([None] while pending). *)
Record Runtime : Type := mkRuntime {
  world : World;
  suspended : list (nat * string);
  promises : list (option (Settled unit))
}.

Inductive SwapEvent : Type :=
| CallLoadModel (modelUrl : string)
| LoadSettled (call : nat) (loaded : Settled GLTF).

Fixpoint find_call (k : nat) (l : list (nat * string)) : option string :=
  match l with
  | [] => None
  | (k', url) :: rest => if Nat.eqb k' k then Some url else find_call k rest
  end.

Fixpoint drop_call (k : nat) (l : list (nat * string)) : list (nat * string) :=
  match l with
  | [] => []
  | (k', url) :: rest =>
      if Nat.eqb k' k then rest else (k', url) :: drop_call k rest
  end.

Fixpoint set_promise (k : nat) (p : option (Settled unit))
  (l : list (option (Settled unit))) : list (option (Settled unit)) :=
  match l, k with
  | [], _ => []
  | _ :: rest, O => p :: rest
  | q :: rest, S k' => q :: set_promise k' p rest
  end.

(** A call of [loadModel] runs to its [await]; a settled load resumes the
    call that awaits it.  A load settles once: a settlement for a call that
    is not suspended does nothing. *)
Definition step (rt : Runtime) (ev : SwapEvent) : Runtime :=
  match ev with
  | CallLoadModel modelUrl =>
      let k := List.length (promises rt) in
      match loadModel_call modelUrl (world rt) with
      | (Normal _, w') =>
          mkRuntime w' (suspended rt ++ [(k, modelUrl)]) (promises rt ++ [None])
      | (Throw e, w') =>
          mkRuntime w' (suspended rt) (promises rt ++ [Some (Rejected e)])
      end
  | LoadSettled k loaded =>
      match find_call k (suspended rt) with
      | Some modelUrl =>
          let r := loadModel_resume modelUrl loaded (world rt) in
          mkRuntime (snd r) (drop_call k (suspended rt))
                    (set_promise k (Some (settle (fst r))) (promises rt))
      | None => rt
      end
  end.

Definition steps (rt : Runtime) (evs : list SwapEvent) : Runtime :=
  fold_left step evs rt.

(** No call of [loadModel] made yet. *)
Definition boot (w : World) : Runtime := mkRuntime w [] [].

(** [requestSwap(identifier)] of the design document is a call of
    [loadModel]. *)
Definition requestSwap (identifier : string) : SwapEvent :=
  CallLoadModel identifier.

(** The loaded models among the children of the scene. *)
Definition attachedModels (w : World) : list Object3D :=
  filter isGroup (sceneChildren w).

(** The model a successful load of [g] hands to the scene. *)
Definition modelOf (g : GLTF) : Object3D :=
  traverse_setMaterial DiamondMaterial (gltf_scene g).

(** The scene as [init] leaves it before the first [loadModel]: the
    checkerboard plane, and no diamond. *)
Definition plane : Object3D := Mesh 0 PlaneMaterial [].
Definition initialWorld : World := mkWorld None [plane] [].

Definition gltfA : GLTF := mkGLTF 1 [Mesh 2 (FileMaterial 0) []].
Definition gltfB : GLTF := mkGLTF 3 [Mesh 4 (FileMaterial 1) []].

(** ** The checkerboard texture *)

(** A pixel of a canvas: transparent until painted, then a CSS colour. *)
Inductive Pixel : Type :=
| Transparent
| Css (color : string).

(** An [HTMLCanvasElement] through its 2D context: its size and what is
    painted at each pixel, column first. *)
Record Canvas : Type := mkCanvas {
  canvasWidth : nat;
  canvasHeight : nat;
  pixelAt : nat -> nat -> Pixel
}.

Definition createCanvas (w h : nat) : Canvas :=
  mkCanvas w h (fun _ _ => Transparent).

(** [context.fillStyle = style; context.fillRect(rx, ry, rw, rh)]. *)
Definition fillRect (style : string) (rx ry rw rh : nat) (cv : Canvas) : Canvas :=
  mkCanvas (canvasWidth cv) (canvasHeight cv)
    (fun px py =>
       if (Nat.leb rx px && Nat.ltb px (rx + rw) &&
           Nat.leb ry py && Nat.ltb py (ry + rh))%bool
       then Css style
       else pixelAt cv px py).

Inductive Wrapping : Type :=
| RepeatWrapping
| ClampToEdgeWrapping
| MirroredRepeatWrapping.

Inductive TextureFilter : Type :=
| NearestFilter
| LinearFilter
| LinearMipmapLinearFilter.

(** [THREE.CanvasTexture], with the properties the function sets. *)
Record CanvasTexture : Type := mkCanvasTexture {
  image : Canvas;
  minFilter : TextureFilter;
  magFilter : TextureFilter;
  generateMipmaps : bool;
  wrapS : Wrapping;
  wrapT : Wrapping
}.

(** [createCheckerboardTexture()]; [context2d] tells whether
    [canvas.getContext('2d')] gives a context. *)
Definition createCheckerboardTexture (context2d : bool)
  : Completion CanvasTexture :=
  let canvas := createCanvas 2 2 in
  if negb context2d then Throw "Could not get 2D context from canvas"%string
  else
    let canvas := fillRect "#ffffff" 0 0 2 2 canvas in
    let canvas := fillRect "#999999" 0 0 1 1 canvas in
    let canvas := fillRect "#999999" 1 1 1 1 canvas in
    Normal (mkCanvasTexture canvas LinearMipmapLinearFilter NearestFilter true
                            RepeatWrapping RepeatWrapping).

(** ** [init] and [main] *)

(** How far [init] has got: not called, suspended at
    [await rgbeLoader.loadAsync], suspended at [await loadModel] on the
    promise of call number [call], returned, or thrown (and caught by
    [main]). *)
Inductive InitPhase : Type :=
| NotStarted
| AwaitingHdr
| AwaitingModel (call : nat)
| InitDone
| InitFailed.

Inductive Handler : Type :=
| OnWindowResize
| OnMouseDown
| OnMouseMove
| OnMouseUp
| OnMouseWheel.

(** The page: the camera control, the variables and calls of [loadModel],
    the progress of [init], whether the model menu of the GUI calls
    [loadModel] on change, the listeners registered with
    [addEventListener] (event type and handler) and whether
    [renderer.setAnimationLoop(animate)] has been called. *)
Record Page : Type := mkPage {
  controller : Controller;
  runtime : Runtime;
  phase : InitPhase;
  modelMenu : bool;
  listeners : list (string * Handler);
  animationLoop : bool
}.

(** The page when the module has been evaluated and [main] not yet
    called: the variables have the values of their declarations
    ([new THREE.Spherical()] is radius 1, angles 0), there is no scene and
    no camera yet. *)
Definition pageLoaded : Page :=
  mkPage (mkController false (mkPoint 0 0) (mkSpherical 1 0 0)
                       (mkSpherical 1 0 0) (mkVector3 0 0 0))
         (boot (mkWorld None [] []))
         NotStarted false [] false.

(** [init] up to [await rgbeLoader.loadAsync(...)]: the scene is created
    empty, the camera placed, the poses computed from its position.  The
    renderer and the GUI panel hold none of the variables modelled. *)
Definition init_begin (p : Page) : Page :=
  let c := controller p in
  let s := setFromVector3 cameraStart in
  let w := world (runtime p) in
  mkPage (mkController (isDragging c) (previousMousePosition c) s
                       (mkSpherical (radius s) (phi s) (theta s)) cameraStart)
         (mkRuntime (mkWorld (diamond w) [] (consoleErrors w))
                    (suspended (runtime p)) (promises (runtime p)))
         AwaitingHdr (modelMenu p) (listeners p) (animationLoop p).

(** [init] threw [err]: [main] catches it and logs. *)
Definition main_catch (err : JsError) (p : Page) : Page :=
  let w := world (runtime p) in
  mkPage (controller p)
         (mkRuntime
            (mkWorld (diamond w) (sceneChildren w)
                     (consoleErrors w ++
                      [("Failed to initialize the application:"%string, err)]))
            (suspended (runtime p)) (promises (runtime p)))
         InitFailed (modelMenu p) (listeners p) (animationLoop p).

Definition defaultModel : string := "/models/diamond.glb".

(** [init] from the settlement of the environment map to
    [await loadModel(modelSelection.model)]: a failed load or a missing 2D
    context throws; otherwise the plane enters the scene, the model menu is
    wired to [loadModel], and [loadModel] is called for the default
    model. *)
Definition init_after_hdr (hdr : Settled unit) (context2d : bool) (p : Page)
  : Page :=
  match hdr with
  | Rejected err => main_catch err p
  | Fulfilled _ =>
      match createCheckerboardTexture context2d with
      | Throw err => main_catch err p
      | Normal _ =>
          let rt := runtime p in
          let w := world rt in
          let rt1 :=
            mkRuntime (mkWorld (diamond w) (children_add plane (sceneChildren w))
                               (consoleErrors w))
                      (suspended rt) (promises rt) in
          mkPage (controller p)
                 (step rt1 (CallLoadModel defaultModel))
                 (AwaitingModel (List.length (promises rt1)))
                 true (listeners p) (animationLoop p)
      end
  end.

(** The end of [init], once the promise of [loadModel] has settled with
    [loaded]: the listeners and the animation loop. *)
Definition init_finish (loaded : Settled unit) (p : Page) : Page :=
  match loaded with
  | Rejected err => main_catch err p
  | Fulfilled _ =>
      mkPage (controller p) (runtime p) InitDone (modelMenu p)
             (listeners p ++
              [("resize"%string, OnWindowResize);
               ("mousedown"%string, OnMouseDown);
               ("mousemove"%string, OnMouseMove);
               ("mouseup"%string, OnMouseUp);
               ("mouseleave"%string, OnMouseUp);
               ("wheel"%string, OnMouseWheel)])
             true
  end.

(** What happens to the page. *)
Inductive PageEvent : Type :=
| CallMain
| HdrSettled (hdr : Settled unit) (context2d : bool)
| MenuChange (modelUrl : string)
| ModelSettled (call : nat) (loaded : Settled GLTF)
| Dom (eventType : string) (innerHeight : R) (mouse : MouseEvent)
      (wheel : WheelEvent)
| AnimationFrame.

(** The handler registered for an event type, if any (the first one; no
    type gets two here). *)
Fixpoint listenerFor (eventType : string) (l : list (string * Handler))
  : option Handler :=
  match l with
  | [] => None
  | (t, h) :: rest =>
      if String.eqb t eventType then Some h else listenerFor eventType rest
  end.

(** [onWindowResize] sets the aspect ratio of the camera and the size of
    the renderer, none of which the camera control reads. *)
Definition runHandler (h : Handler) (innerHeight : R) (mouse : MouseEvent)
           (wheel : WheelEvent) (c : Controller) : Controller :=
  match h with
  | OnWindowResize => c
  | OnMouseDown => onMouseDown mouse c
  | OnMouseMove => onMouseMove innerHeight mouse c
  | OnMouseUp => onMouseUp c
  | OnMouseWheel => onMouseWheel wheel c
  end.

Definition withController (c : Controller) (p : Page) : Page :=
  mkPage c (runtime p) (phase p) (modelMenu p) (listeners p) (animationLoop p).

Definition withRuntime (rt : Runtime) (p : Page) : Page :=
  mkPage (controller p) rt (phase p) (modelMenu p) (listeners p)
         (animationLoop p).

Definition pageStep (p : Page) (ev : PageEvent) : Page :=
  match ev with
  | CallMain =>
      match phase p with
      | NotStarted => init_begin p
      | _ => p
      end
  | HdrSettled hdr context2d =>
      match phase p with
      | AwaitingHdr => init_after_hdr hdr context2d p
      | _ => p
      end
  | MenuChange modelUrl =>
      if modelMenu p then withRuntime (step (runtime p) (CallLoadModel modelUrl)) p
      else p
  | ModelSettled k loaded =>
      let p' := withRuntime (step (runtime p) (LoadSettled k loaded)) p in
      match phase p with
      | AwaitingModel k0 =>
          if Nat.eqb k0 k then
            match nth_error (promises (runtime p')) k with
            | Some (Some settled) => init_finish settled p'
            | _ => p'
            end
          else p'
      | _ => p'
      end
  | Dom eventType innerHeight mouse wheel =>
      match listenerFor eventType (listeners p) with
      | Some h => withController (runHandler h innerHeight mouse wheel (controller p)) p
      | None => p
      end
  | AnimationFrame =>
      if animationLoop p then withController (animate (controller p)) p else p
  end.

Definition pageRun (p : Page) (evs : list PageEvent) : Page :=
  fold_left pageStep evs p.

(** The event is the settlement of the load of call 0, the call [init]
    makes for the default model. *)
Definition settlesDefault (ev : PageEvent) : bool :=
  match ev with
  | ModelSettled O _ => true
  | _ => false
  end.

(** ** Notions used to state properties of [loadModel] *)

(** The materials of the meshes of a subtree and the ids of its nodes, in
    the order [traverse] visits them. *)
Fixpoint meshMaterials (o : Object3D) : list Material :=
  match o with
  | Mesh _ m cs => m :: flat_map meshMaterials cs
  | Group _ cs => flat_map meshMaterials cs
  end.

Fixpoint nodeIds (o : Object3D) : list nat :=
  match o with
  | Mesh i _ cs => i :: flat_map nodeIds cs
  | Group i cs => i :: flat_map nodeIds cs
  end.

(** The children of the scene are distinct objects, and a model in the
    scene is the one [diamond] refers to. *)
Definition one_model (w : World) : Prop :=
  NoDup (map object_id (sceneChildren w)) /\
  (forall c, In c (attachedModels w) ->
             exists d, diamond w = Some d /\ object_id d = object_id c).

(** Swaps made one after the other: every call of [loadModel] is followed
    by the settlement of its load before the next call; [k] is the number
    of the first call. *)
Fixpoint sequentialSwaps (k : nat) (l : list (string * Settled GLTF))
  : list SwapEvent :=
  match l with
  | [] => []
  | (modelUrl, loaded) :: rest =>
      CallLoadModel modelUrl :: LoadSettled k loaded
        :: sequentialSwaps (S k) rest
  end.

(** The ids of the models that the successful loads of a sequence of events
    deliver, the models themselves, and the number of failed loads. *)
Fixpoint loadedIds (evs : list SwapEvent) : list nat :=
  match evs with
  | [] => []
  | LoadSettled _ (Fulfilled g) :: rest => gltf_scene_id g :: loadedIds rest
  | _ :: rest => loadedIds rest
  end.

Fixpoint loadedModels (evs : list SwapEvent) : list Object3D :=
  match evs with
  | [] => []
  | LoadSettled _ (Fulfilled g) :: rest => modelOf g :: loadedModels rest
  | _ :: rest => loadedModels rest
  end.

Fixpoint failedLoads (evs : list SwapEvent) : nat :=
  match evs with
  | [] => O
  | LoadSettled _ (Rejected _) :: rest => S (failedLoads rest)
  | _ :: rest => failedLoads rest
  end.

(** ** Reachable states, and the design document's wording of two claims *)

(** In a reachable state the suspended calls have distinct numbers, each
    with a pending promise, and no promise is rejected. *)
Definition runtime_ok (rt : Runtime) : Prop :=
  NoDup (map fst (suspended rt)) /\
  (forall k url, In (k, url) (suspended rt) ->
                 nth_error (promises rt) k = Some None) /\
  (forall k p, nth_error (promises rt) k = Some p ->
               p = None \/ p = Some (Fulfilled tt)).

(** What holds of the page in each phase of [init], whatever has happened
    to it since the module was loaded. *)
Definition page_ok (p : Page) : Prop :=
  match phase p with
  | NotStarted => p = pageLoaded
  | AwaitingHdr =>
      controller p = initialController /\
      runtime p = boot (mkWorld None [] []) /\
      modelMenu p = false /\ listeners p = [] /\ animationLoop p = false
  | AwaitingModel k =>
      k = O /\
      controller p = initialController /\
      runtime_ok (runtime p) /\
      find_call 0 (suspended (runtime p)) = Some defaultModel /\
      modelMenu p = true /\ listeners p = [] /\ animationLoop p = false
  | InitDone =>
      runtime_ok (runtime p) /\
      modelMenu p = true /\
      listeners p =
        [("resize"%string, OnWindowResize);
         ("mousedown"%string, OnMouseDown);
         ("mousemove"%string, OnMouseMove);
         ("mouseup"%string, OnMouseUp);
         ("mouseleave"%string, OnMouseUp);
         ("wheel"%string, OnMouseWheel)] /\
      animationLoop p = true
  | InitFailed =>
      controller p = initialController /\
      (exists err,
          runtime p =
          boot (mkWorld None []
                        [("Failed to initialize the application:"%string, err)])) /\
      modelMenu p = false /\ listeners p = [] /\ animationLoop p = false
  end.

(** The claim of C1 as the design document words it: of two overlapping
    requests whose loads both succeed, in either order, the second one's
    model ends up as the diamond and as the only model in the scene. *)
Definition stale_completion_discarded (w : World) (a b : string)
           (ga gb : GLTF) : Prop :=
  forall order : list SwapEvent,
    order = [LoadSettled 0 (Fulfilled ga); LoadSettled 1 (Fulfilled gb)] \/
    order = [LoadSettled 1 (Fulfilled gb); LoadSettled 0 (Fulfilled ga)] ->
    let w' := world (steps (boot w) (requestSwap a :: requestSwap b :: order)) in
    diamond w' = Some (modelOf gb) /\ attachedModels w' = [modelOf gb].

(** The claim of C2 as the design document words it: a request whose
    load fails leaves the diamond and the scene as they were, and logs one
    error. *)
Definition failed_swap_keeps_scene (w : World) (modelUrl : string)
           (e : JsError) : Prop :=
  let w' := world (steps (boot w)
                     [requestSwap modelUrl; LoadSettled 0 (Rejected e)]) in
  diamond w' = diamond w /\
  sceneChildren w' = sceneChildren w /\
  List.length (consoleErrors w') = S (List.length (consoleErrors w)).

(** A scene that shows the model of [gltfA]. *)
Definition showingWorld : World :=
  mkWorld (Some (modelOf gltfA)) [plane; modelOf gltfA] [].

(** * Properties of the camera control *)

Open Scope R_scope.

Section Arithmetic.

(** [Math.max(lo, Math.min(hi, v))] is within [[lo, hi]]. *)
Lemma clamp_within (lo hi v : R) :
  lo <= hi -> lo <= Rmax lo (Rmin hi v) <= hi.
Proof.
  intros Hle. split.
  - apply Rmax_l.
  - apply Rmax_lub; [exact Hle | apply Rmin_l].
Qed.

(** A value already within [[lo, hi]] is left as it is. *)
Lemma clamp_id (lo hi v : R) :
  lo <= v <= hi -> Rmax lo (Rmin hi v) = v.
Proof.
  intros [Hlo Hhi].
  rewrite Rmin_right by exact Hhi.
  apply Rmax_right; exact Hlo.
Qed.

Lemma clamp_monotone (lo hi v w : R) :
  v <= w -> Rmax lo (Rmin hi v) <= Rmax lo (Rmin hi w).
Proof.
  intros Hvw. apply Rle_max_compat_l.
  apply Rmin_glb; [apply Rmin_l | ].
  apply Rle_trans with v; [apply Rmin_r | exact Hvw].
Qed.

Lemma lerp_within (lo hi a b t : R) :
  0 <= t <= 1 -> lo <= a <= hi -> lo <= b <= hi ->
  lo <= MathUtils.lerp a b t <= hi.
Proof.
  intros [Ht0 Ht1] [Ha0 Ha1] [Hb0 Hb1]. unfold MathUtils.lerp.
  split; nra.
Qed.

Lemma damping_range : 0 < dampingFactor < 1.
Proof. unfold dampingFactor. lra. Qed.

Lemma polar_limits_ordered : minPolarAngle <= maxPolarAngle.
Proof.
  unfold minPolarAngle, maxPolarAngle. pose proof PI2_1. lra.
Qed.

Lemma radius_limits_ordered : minRadius <= maxRadius.
Proof. unfold minRadius, maxRadius. lra. Qed.


End Arithmetic.

Section Handlers.

Lemma onMouseDown_keeps_poses (e : MouseEvent) (c : Controller) :
  targetSpherical (onMouseDown e c) = targetSpherical c /\
  spherical (onMouseDown e c) = spherical c.
Proof.
  unfold onMouseDown. destruct (Z.eqb (button e) 0); simpl; auto.
Qed.

Lemma onMouseMove_inactive (h : R) (e : MouseEvent) (c : Controller) :
  isDragging c = false -> onMouseMove h e c = c.
Proof. intros Hd. unfold onMouseMove. rewrite Hd. reflexivity. Qed.

Lemma onMouseMove_ok (h : R) (e : MouseEvent) (c : Controller) :
  controller_ok c -> controller_ok (onMouseMove h e c).
Proof.
  intros [[Htp Htr] Hs]. unfold onMouseMove.
  destruct (negb (isDragging c)).
  - split; [split|]; assumption.
  - split; [split|]; simpl; try assumption.
    apply clamp_within, polar_limits_ordered.
Qed.

Lemma onMouseWheel_ok (e : WheelEvent) (c : Controller) :
  controller_ok c -> controller_ok (onMouseWheel e c).
Proof.
  intros [[Htp Htr] Hs]. unfold onMouseWheel.
  split; [split|]; simpl; try assumption.
  apply clamp_within, radius_limits_ordered.
Qed.

Lemma animate_ok (c : Controller) :
  controller_ok c -> controller_ok (animate c).
Proof.
  intros [[Htp Htr] [Hsp Hsr]]. pose proof damping_range as Hd.
  unfold animate. split; [split|split]; simpl; try assumption.
  - apply lerp_within; [lra | assumption | assumption].
  - apply lerp_within; [lra | assumption | assumption].
Qed.

Lemma handle_ok (c : Controller) (i : Input) :
  controller_ok c -> controller_ok (handle c i).
Proof.
  intros Hok. destruct i as [e | h e | | e | ]; simpl.
  - destruct (onMouseDown_keeps_poses e c) as [Ht Hs].
    unfold controller_ok. rewrite Ht, Hs. exact Hok.
  - apply onMouseMove_ok; exact Hok.
  - exact Hok.
  - apply onMouseWheel_ok; exact Hok.
  - apply animate_ok; exact Hok.
Qed.

Lemma run_ok (inputs : list Input) :
  forall c, controller_ok c -> controller_ok (run c inputs).
Proof.
  unfold run. induction inputs as [|i rest IH]; intros c Hok; simpl.
  - exact Hok.
  - apply IH, handle_ok, Hok.
Qed.

End Handlers.

(** ** Rounding and its error *)

Section Dyadic.

Lemma pow2_pos (e : Z) : 0 < pow2 e.
Proof. apply powerRZ_lt. lra. Qed.

Lemma pow2_add (a b : Z) : pow2 (a + b) = pow2 a * pow2 b.
Proof. apply powerRZ_add. lra. Qed.



Lemma IZR_pow2 (k : Z) : (0 <= k)%Z -> IZR (2 ^ k) = pow2 k.
Proof.
  intros Hk. destruct k as [|p|p]; try lia.
  - reflexivity.
  - unfold pow2. change (2 ^ Z.pos p)%Z with (Z.pow_pos 2 p).
    rewrite Zpower_pos_powerRZ. reflexivity.
Qed.

Lemma D2R_exact_mul (a b : Double) : D2R (exact_mul a b) = D2R a * D2R b.
Proof.
  unfold D2R, exact_mul; simpl. rewrite mult_IZR, pow2_add. ring.
Qed.

Lemma D2R_align (a : Double) (e : Z) :
  (e <= exponent a)%Z -> IZR (align a e) * pow2 e = D2R a.
Proof.
  intros He. unfold align, D2R.
  rewrite mult_IZR, IZR_pow2 by lia.
  rewrite Rmult_assoc, <- pow2_add. f_equal. f_equal. lia.
Qed.

Lemma D2R_exact_add (a b : Double) : D2R (exact_add a b) = D2R a + D2R b.
Proof.
  unfold exact_add. cbv zeta. unfold D2R at 1. simpl.
  rewrite plus_IZR, Rmult_plus_distr_r.
  rewrite !D2R_align by lia. reflexivity.
Qed.

Lemma D2R_exact_opp (a : Double) : D2R (exact_opp a) = - D2R a.
Proof. unfold D2R, exact_opp; simpl. rewrite opp_IZR. ring. Qed.

(** Rounding [A] to a multiple of [2^k]: off by at most half of it. *)
Lemma nearest_even_error (A k : Z) :
  (0 <= A)%Z -> (0 < k)%Z ->
  (Z.abs (nearest_even A k * 2 ^ k - A) <= 2 ^ (k - 1))%Z.
Proof.
  intros HA Hk. unfold nearest_even.
  assert (HP : (2 ^ k = 2 * 2 ^ (k - 1))%Z).
  { replace k with (Z.succ (k - 1)) at 1 by lia.
    rewrite Z.pow_succ_r by lia. reflexivity. }
  assert (HH : (0 < 2 ^ (k - 1))%Z) by (apply Z.pow_pos_nonneg; lia).
  pose proof (Z.div_mod A (2 ^ k) ltac:(lia)) as Hdiv.
  pose proof (Z.mod_pos_bound A (2 ^ k) ltac:(lia)) as Hmod.
  set (q := (A / 2 ^ k)%Z) in *. set (r := (A mod 2 ^ k)%Z) in *.
  set (P := (2 ^ k)%Z) in *. set (H := (2 ^ (k - 1))%Z) in *.
  destruct (Z.ltb_spec r H); [nia|].
  destruct (Z.ltb_spec H r); [nia|].
  destruct (Z.even q); nia.
Qed.

Lemma nearest_even_nonneg (A k : Z) :
  (0 <= A)%Z -> (0 < k)%Z -> (0 <= nearest_even A k)%Z.
Proof.
  intros HA Hk. unfold nearest_even.
  assert (Hq : (0 <= A / 2 ^ k)%Z)
    by (apply Z.div_pos; [exact HA | apply Z.pow_pos_nonneg; lia]).
  destruct (_ <? _)%Z; [exact Hq|].
  destruct (_ <? _)%Z; [lia|]. destruct (Z.even _); lia.
Qed.

End Dyadic.

Section Rounding.

Lemma Rabs_D2R (a : Double) :
  Rabs (D2R a) = IZR (Z.abs (mantissa a)) * pow2 (exponent a).
Proof.
  unfold D2R. rewrite Rabs_mult, Rabs_Zabs.
  rewrite (Rabs_right (pow2 _)); [reflexivity|].
  apply Rle_ge. left. apply pow2_pos.
Qed.

(** What rounding changes: at most half a unit in the last place kept. *)
Lemma round64_ulp (a : Double) :
  let k := Z.max (Z.log2 (Z.abs (mantissa a)) + 1 - 53) (-1074 - exponent a) in
  (0 < k)%Z ->
  Rabs (D2R (round64 a) - D2R a) <= pow2 (k - 1 + exponent a).
Proof.
  intros k Hk. unfold round64. fold k.
  destruct (Z.leb_spec k 0) as [Hle | _]; [lia|].
  set (A := Z.abs (mantissa a)).
  assert (HA : (0 <= A)%Z) by apply Z.abs_nonneg.
  pose proof (nearest_even_error A k HA Hk) as Herr.
  set (q := nearest_even A k) in *.
  assert (Hm : mantissa a = (Z.sgn (mantissa a) * A)%Z)
    by (unfold A; rewrite Z.mul_comm; symmetry; apply Z.abs_sgn).
  unfold D2R at 1. cbn [mantissa exponent].
  unfold D2R. rewrite Hm at 2.
  rewrite !mult_IZR, pow2_add.
  replace (IZR (Z.sgn (mantissa a)) * IZR q * (pow2 (exponent a) * pow2 k)
           - IZR (Z.sgn (mantissa a)) * IZR A * pow2 (exponent a))
    with (IZR (Z.sgn (mantissa a)) * (IZR q * pow2 k - IZR A) * pow2 (exponent a))
    by ring.
  rewrite <- (IZR_pow2 k) by lia. rewrite <- mult_IZR, <- minus_IZR.
  rewrite !Rabs_mult, !Rabs_Zabs.
  rewrite (Rabs_right (pow2 _)) by (apply Rle_ge; left; apply pow2_pos).
  rewrite (pow2_add (k - 1)), <- (IZR_pow2 (k - 1)) by lia.
  assert (Hsgn : 0 <= IZR (Z.abs (Z.sgn (mantissa a))) <= 1).
  { split; [apply IZR_le; lia|]. apply IZR_le.
    destruct (mantissa a); simpl; lia. }
  assert (Hd : 0 <= IZR (Z.abs (q * 2 ^ k - A)) <= IZR (2 ^ (k - 1)))
    by (split; apply IZR_le; lia).
  pose proof (pow2_pos (exponent a)).
  apply Rmult_le_compat_r; [lra|]. nra.
Qed.

(** The standard model of rounding: a relative error of [2^-53], or an
    absolute one of [2^-1075] when the result is subnormal. *)
Lemma round64_error (a : Double) :
  Rabs (D2R (round64 a) - D2R a) <= pow2 (-53) * Rabs (D2R a) + pow2 (-1075).
Proof.
  set (A := Z.abs (mantissa a)).
  set (n := (Z.log2 A + 1)%Z).
  set (k := Z.max (n - 53) (-1074 - exponent a)).
  pose proof (pow2_pos (-53)) as H53. pose proof (pow2_pos (-1075)) as H1075.
  pose proof (Rabs_pos (D2R a)) as Hpos.
  destruct (Z.leb_spec k 0) as [Hle | Hlt].
  - assert (Hsame : round64 a = a).
    { unfold round64. fold A. fold n. fold k.
      destruct (Z.leb_spec k 0); [reflexivity | lia]. }
    rewrite Hsame. replace (D2R a - D2R a) with 0 by ring.
    rewrite Rabs_R0. nra.
  - pose proof (round64_ulp a Hlt) as Hulp. fold A in Hulp. fold n in Hulp.
    fold k in Hulp.
    apply Rle_trans with (1 := Hulp).
    destruct (Z.max_spec (n - 53) (-1074 - exponent a)) as [[_ Hk] | [_ Hk]];
      fold k in Hk.
    + replace (k - 1 + exponent a)%Z with (-1075)%Z by lia. nra.
    + assert (HA : (0 < A)%Z).
      { destruct (Z.eq_dec A 0) as [Hz | Hnz]; [|unfold A in *; lia].
        unfold n in Hk. rewrite Hz in Hk. simpl in Hk. lia. }
      pose proof (Z.log2_spec A HA) as [Hlow _].
      rewrite Rabs_D2R. fold A.
      replace (k - 1 + exponent a)%Z with (-53 + (Z.log2 A + exponent a))%Z
        by lia.
      rewrite !pow2_add.
      assert (Hle : pow2 (Z.log2 A) <= IZR A).
      { rewrite <- IZR_pow2 by apply Z.log2_nonneg. apply IZR_le, Hlow. }
      pose proof (pow2_pos (exponent a)). pose proof (pow2_pos (Z.log2 A)).
      apply Rle_trans with (pow2 (-53) * (IZR A * pow2 (exponent a))); [|lra].
      apply Rmult_le_compat_l; [lra|].
      apply Rmult_le_compat_r; [lra | exact Hle].
Qed.

(** The result of rounding fits the format: at most 53 bits of mantissa
    (or the power [2^53] itself) and an exponent of at least -1074. *)
Lemma round64_format (a : Double) :
  (Z.abs (mantissa (round64 a)) <= 2 ^ 53)%Z /\
  (-1074 <= exponent (round64 a))%Z.
Proof.
  unfold round64. cbv zeta.
  set (m := mantissa a). set (e := exponent a).
  set (n := (Z.log2 (Z.abs m) + 1)%Z).
  set (k := Z.max (n - 53) (-1074 - e)).
  assert (Hn : (Z.abs m < 2 ^ n)%Z).
  { unfold n. destruct (Z.eq_dec (Z.abs m) 0) as [H0 | H0].
    - rewrite H0. simpl. lia.
    - apply Z.log2_spec. lia. }
  assert (Hn0 : (0 < n)%Z) by (unfold n; pose proof (Z.log2_nonneg (Z.abs m)); lia).
  destruct (k <=? 0)%Z eqn:Hk.
  - apply Z.leb_le in Hk. fold m e. split; [|lia].
    apply Z.le_trans with (2 ^ n)%Z; [lia|].
    apply Z.pow_le_mono_r; lia.
  - apply Z.leb_gt in Hk. cbn [mantissa exponent]. split; [|lia].
    rewrite Z.abs_mul.
    assert (Hq : (0 <= nearest_even (Z.abs m) k <= 2 ^ 53)%Z).
    { split; [apply nearest_even_nonneg; lia|].
      assert (Hdiv : (Z.abs m / 2 ^ k < 2 ^ 53)%Z).
      { apply Z.div_lt_upper_bound; [apply Z.pow_pos_nonneg; lia|].
        rewrite <- Z.pow_add_r by lia.
        apply Z.lt_le_trans with (2 ^ n)%Z; [exact Hn|].
        apply Z.pow_le_mono_r; lia. }
      unfold nearest_even. cbv zeta.
      repeat match goal with |- context [if ?c then _ else _] => destruct c end;
        lia. }
    rewrite (Z.abs_eq (nearest_even _ _)) by lia.
    assert (Hs : (Z.abs (Z.sgn m) <= 1)%Z) by (destruct m; simpl; lia).
    nia.
Qed.

End Rounding.

(** ** One interpolation in doubles *)

Section Interpolation.

Lemma one_minus_damping : fsub one64 dampingFactor64 = ninth64.
Proof. vm_compute. reflexivity. Qed.

Lemma pow2_neg (k : Z) : pow2 (- k) = / pow2 k.
Proof. apply powerRZ_neg'. Qed.

Lemma pow2_m53 : pow2 (-53) = / 9007199254740992.
Proof.
  change (-53)%Z with (- (53))%Z. rewrite pow2_neg, <- IZR_pow2 by lia.
  reflexivity.
Qed.

Lemma pow2_m55 : pow2 (-55) = / 36028797018963968.
Proof.
  change (-55)%Z with (- (55))%Z. rewrite pow2_neg, <- IZR_pow2 by lia.
  reflexivity.
Qed.

Lemma D2R_damping : D2R dampingFactor64 = 3602879701896397 / 36028797018963968.
Proof.
  unfold D2R, dampingFactor64. cbn [mantissa exponent].
  rewrite pow2_m55. reflexivity.
Qed.

Lemma D2R_ninth : D2R ninth64 = 8106479329266893 / 9007199254740992.
Proof.
  unfold D2R, ninth64. cbn [mantissa exponent].
  rewrite pow2_m53. reflexivity.
Qed.

(** The double nearest to 0.10 is a little above it. *)
Lemma damping64_close :
  D2R dampingFactor64 - dampingFactor = / 180143985094819840.
Proof. rewrite D2R_damping. unfold dampingFactor. lra. Qed.

(** One interpolation in doubles against the exact one with factor 0.9:
    they differ by rounding only. *)
Lemma lerp64_error (x y : Double) :
  let c := D2R x in
  let t := D2R y in
  let s := D2R (lerp64 x y dampingFactor64) in
  Rabs ((s - t) - (1 - dampingFactor) * (c - t)) <=
  pow2 (-51) * (Rabs (c - t) + Rabs t) + pow2 (-1073).
Proof.
  intros c t s. unfold s, lerp64. rewrite one_minus_damping.
  set (p1 := fmul ninth64 x). set (p2 := fmul dampingFactor64 y).
  pose proof (round64_error (exact_mul ninth64 x)) as H1.
  pose proof (round64_error (exact_mul dampingFactor64 y)) as H2.
  pose proof (round64_error (exact_add p1 p2)) as H3.
  fold (fmul ninth64 x) in H1. fold (fmul dampingFactor64 y) in H2.
  fold (fadd p1 p2) in H3. fold p1 in H1. fold p2 in H2.
  rewrite D2R_exact_mul in H1, H2. rewrite D2R_exact_add in H3.
  rewrite D2R_ninth in H1. rewrite D2R_damping in H2.
  fold c in H1. fold t in H2.
  assert (Hu : pow2 (-51) = 4 * pow2 (-53)).
  { replace (-51)%Z with (2 + -53)%Z by lia. rewrite pow2_add.
    rewrite <- (IZR_pow2 2) by lia. reflexivity. }
  assert (Heta : pow2 (-1073) = 4 * pow2 (-1075)).
  { replace (-1073)%Z with (2 + -1075)%Z by lia. rewrite pow2_add.
    rewrite <- (IZR_pow2 2) by lia. reflexivity. }
  rewrite Hu, Heta. rewrite pow2_m53 in *.
  pose proof (pow2_pos (-1075)) as Heta0.
  set (eta := pow2 (-1075)) in *.
  set (v1 := D2R p1) in *. set (v2 := D2R p2) in *.
  set (v3 := D2R (fadd p1 p2)) in *.
  unfold dampingFactor.
  (* absolute values as bounds *)
  assert (HC : Rabs c <= Rabs (c - t) + Rabs t).
  { replace c with ((c - t) + t) at 1 by ring. apply Rabs_triang. }
  rewrite Rabs_mult in H1, H2.
  rewrite (Rabs_right (8106479329266893 / 9007199254740992)) in H1 by lra.
  rewrite (Rabs_right (3602879701896397 / 36028797018963968)) in H2 by lra.
  assert (H12 : Rabs (v1 + v2) <=
                Rabs (v1 - 8106479329266893 / 9007199254740992 * c)
                + Rabs (v2 - 3602879701896397 / 36028797018963968 * t)
                + 8106479329266893 / 9007199254740992 * Rabs c
                + 3602879701896397 / 36028797018963968 * Rabs t).
  { replace (v1 + v2)
      with ((v1 - 8106479329266893 / 9007199254740992 * c)
            + (v2 - 3602879701896397 / 36028797018963968 * t)
            + 8106479329266893 / 9007199254740992 * c
            + 3602879701896397 / 36028797018963968 * t) at 1 by ring.
    eapply Rle_trans; [apply Rabs_triang|].
    apply Rplus_le_compat.
    - eapply Rle_trans; [apply Rabs_triang|].
      apply Rplus_le_compat.
      + apply Rabs_triang.
      + rewrite Rabs_mult, (Rabs_right (8106479329266893 / 9007199254740992)) by lra.
        lra.
    - rewrite Rabs_mult, (Rabs_right (3602879701896397 / 36028797018963968)) by lra.
      lra. }
  pose proof (Rabs_pos c) as HC0. pose proof (Rabs_pos t) as HT0.
  pose proof (Rabs_pos (c - t)) as HE0.
  assert (Habs : forall z : R, z <= Rabs z /\ - z <= Rabs z).
  { intros z. split; [apply Rle_abs|]. rewrite <- Rabs_Ropp. apply Rle_abs. }
  destruct (Habs (v1 - 8106479329266893 / 9007199254740992 * c)) as [B1 B1'].
  destruct (Habs (v2 - 3602879701896397 / 36028797018963968 * t)) as [B2 B2'].
  destruct (Habs (v3 - (v1 + v2))) as [B3 B3'].
  destruct (Habs t) as [Bt Bt']. destruct (Habs (c - t)) as [Bc Bc'].
  revert H1 H2 H3 H12 HC B1 B1' B2 B2' B3 B3' Bt Bt' Bc Bc' HC0 HT0 HE0.
  generalize (Rabs (v1 - 8106479329266893 / 9007199254740992 * c)).
  generalize (Rabs (v2 - 3602879701896397 / 36028797018963968 * t)).
  generalize (Rabs (v3 - (v1 + v2))).
  generalize (Rabs (v1 + v2)).
  generalize (Rabs (c - t)). generalize (Rabs t). generalize (Rabs c).
  intros C T E a12 a3 a2 a1.
  intros H1 H2 H3 H12 HC B1 B1' B2 B2' B3 B3' Bt Bt' Bc Bc' HC0 HT0 HE0.
  apply Rabs_le. split; lra.
Qed.

(** The same against [THREE.MathUtils.lerp] on real numbers. *)
Lemma lerp64_near_lerp (x y : Double) :
  Rabs (D2R (lerp64 x y dampingFactor64)
        - MathUtils.lerp (D2R x) (D2R y) dampingFactor) <=
  pow2 (-51) * (Rabs (D2R x - D2R y) + Rabs (D2R y)) + pow2 (-1073).
Proof.
  pose proof (lerp64_error x y) as Herr. cbv zeta in Herr.
  unfold MathUtils.lerp.
  replace (D2R (lerp64 x y dampingFactor64)
           - ((1 - dampingFactor) * D2R x + dampingFactor * D2R y))
    with (D2R (lerp64 x y dampingFactor64) - D2R y
          - (1 - dampingFactor) * (D2R x - D2R y)) by ring.
  exact Herr.
Qed.

End Interpolation.

(** ** The damping over many frames *)

Section Damping.








End Damping.



(** ** The handlers on small inputs *)

Example wheel_from_5 :
  radius (targetSpherical (onWheel 100 restingController)) = 7.
Proof.
  simpl. unfold minRadius, maxRadius, zoomSpeed.
  rewrite Rmin_right by lra. rewrite Rmax_right by lra. lra.
Qed.

Example wheel_far_out :
  radius (targetSpherical (onWheel 1000000 restingController)) = 20.
Proof.
  simpl. unfold minRadius, maxRadius, zoomSpeed.
  rewrite Rmin_left by lra. rewrite Rmax_right by lra. reflexivity.
Qed.

(** One frame takes the radius from 11 to 10 when the target is 1. *)
Example tick_once :
  radius64 (animate64 zooming64 zoomed64) = mkDouble 5629499534213120 (-49).
Proof. vm_compute. reflexivity. Qed.

(** After 400 frames the radius is [1.0000000000000016], and a frame
    leaves it there. *)
Example ticks_stall :
  radius64 (ticks64 400 zooming64 zoomed64) = stalledRadius.
Proof. vm_compute. reflexivity. Qed.

Example stalled_above_target :
  lerp64 stalledRadius one64 dampingFactor64 = stalledRadius.
Proof. vm_compute. reflexivity. Qed.

Example press_other_button :
  onMouseDown (mkMouseEvent 2 40 40) restingController = restingController.
Proof. reflexivity. Qed.

(** ** The statements of the design document *)

(** C4: along every finite sequence of mouse, wheel and frame events,
    whatever the deltas they carry, in a viewport whose height is not 0
    when a move is handled, the polar angle of the target pose and of the
    current pose stays within [[0.05, PI - 0.05]] and their radius within
    [[1, 20]], provided both poses start within these limits. *)
Theorem pose_limits_invariant (c : Controller) (inputs : list Input) :
  controller_ok c ->
  Forall viewport_ok inputs ->
  let c' := run c inputs in
  0.05 <= phi (targetSpherical c') <= PI - 0.05 /\
  0.05 <= phi (spherical c') <= PI - 0.05 /\
  1 <= radius (targetSpherical c') <= 20 /\
  1 <= radius (spherical c') <= 20.
Proof.
  intros Hok _ c'.
  destruct (run_ok inputs c Hok) as [[Htp Htr] [Hsp Hsr]].
  fold c' in Htp, Htr, Hsp, Hsr.
  unfold minPolarAngle, maxPolarAngle in Htp, Hsp.
  unfold minRadius, maxRadius in Htr, Hsr.
  repeat split; lra.
Qed.

Lemma restingController_ok : controller_ok restingController.
Proof.
  unfold controller_ok, pose_ok, restingController; simpl.
  unfold minPolarAngle, maxPolarAngle, minRadius, maxRadius.
  pose proof PI2_1. lra.
Qed.

Lemma wildInputs_viewport : Forall viewport_ok wildInputs.
Proof. unfold wildInputs. repeat constructor; simpl; lra. Qed.

Lemma pose_limits_invariant_witness :
  controller_ok restingController /\
  Forall viewport_ok wildInputs /\
  let c' := run restingController wildInputs in
  0.05 <= phi (targetSpherical c') <= PI - 0.05 /\
  0.05 <= phi (spherical c') <= PI - 0.05 /\
  1 <= radius (targetSpherical c') <= 20 /\
  1 <= radius (spherical c') <= 20.
Proof.
  split; [exact restingController_ok|].
  split; [exact wildInputs_viewport|].
  apply (pose_limits_invariant restingController wildInputs).
  - exact restingController_ok.
  - exact wildInputs_viewport.
Defined.




(** C6: for every viewport height [h], a press at [(x0, y0)] followed by
    a move to [(x1, y1)] lowers the target azimuth by
    [(x1 - x0) * 2 * (PI / h)], lowers the target polar angle by
    [(y1 - y0) * 2 * (PI / h)] and clamps it to [[0.05, PI - 0.05]] (so the
    change is exactly that when the result is within the limits), and
    leaves the target radius as it is; the release changes none of them. *)
Theorem drag_gesture_formula (h x0 y0 x1 y1 : R) (c : Controller) :
  let before := targetSpherical c in
  let moved := onDragMove h x1 y1 (onDragStart x0 y0 c) in
  let after := targetSpherical moved in
  theta after = theta before - (x1 - x0) * 2 * (PI / h) /\
  phi after =
    Rmax 0.05 (Rmin (PI - 0.05) (phi before - (y1 - y0) * 2 * (PI / h))) /\
  (0.05 <= phi before - (y1 - y0) * 2 * (PI / h) <= PI - 0.05 ->
   phi after = phi before - (y1 - y0) * 2 * (PI / h)) /\
  radius after = radius before /\
  targetSpherical (onDragEnd moved) = after.
Proof.
  intros before moved after.
  unfold after, moved, before, onDragMove, onDragStart, onMouseMove, onMouseDown.
  simpl. unfold rotationSpeed, minPolarAngle, maxPolarAngle.
  repeat split.
  intros Hin. apply clamp_id. exact Hin.
Qed.

(** The gesture of the design document, (100, 100) to (150, 80), in a
    viewport 800 high, from a polar angle of 1. *)
Lemma drag_gesture_formula_witness :
  phi (targetSpherical
         (onDragMove 800 150 80 (onDragStart 100 100 restingController)))
  = 1 - (80 - 100) * 2 * (PI / 800).
Proof.
  apply (drag_gesture_formula 800 100 100 150 80 restingController).
  simpl. pose proof PI2_1. pose proof PI_4. lra.
Defined.

(** C7: [onWheel(deltaY)] sets the target radius to
    [target.radius + deltaY * 0.020] clamped to [[1, 20]] and touches
    nothing else of the target; from a radius that respects the upper limit
    a positive [deltaY] never lowers it; and [onWheel(100)] then
    [onWheel(-500)] from a radius of at most 9 ends on the radius 1. *)
Theorem wheel_zoom (dy : R) (c : Controller) :
  let before := targetSpherical c in
  let after := targetSpherical (onWheel dy c) in
  radius after = Rmax 1 (Rmin 20 (radius before + dy * 0.020)) /\
  phi after = phi before /\ theta after = theta before /\
  (0 < dy -> radius before <= 20 -> radius before <= radius after) /\
  (radius before <= 9 ->
   radius (targetSpherical (onWheel (-500) (onWheel 100 c))) = 1).
Proof.
  intros before after. unfold after, before, onWheel, onMouseWheel. simpl.
  unfold zoomSpeed, minRadius, maxRadius.
  repeat split.
  - intros Hdy Hmax.
    set (r := radius (targetSpherical c)) in *.
    apply Rle_trans with (Rmin 20 (r + dy * 0.020)); [|apply Rmax_r].
    apply Rmin_glb; [exact Hmax | nra].
  - intros Hmid.
    set (r := radius (targetSpherical c)) in *.
    assert (Hfirst : Rmax 1 (Rmin 20 (r + 100 * 0.020)) <= 11).
    { apply Rmax_lub; [lra|].
      apply Rle_trans with (r + 100 * 0.020); [apply Rmin_r | lra]. }
    apply Rmax_left.
    apply Rle_trans
      with (Rmax 1 (Rmin 20 (r + 100 * 0.020)) + -500 * 0.020);
      [apply Rmin_r | lra].
Qed.

Lemma wheel_zoom_witness :
  5 <= radius (targetSpherical (onWheel 100 restingController)) /\
  radius (targetSpherical (onWheel (-500) (onWheel 100 restingController))) = 1.
Proof.
  split.
  - apply (wheel_zoom 100 restingController); simpl; lra.
  - apply (wheel_zoom 100 restingController); simpl; lra.
Defined.

(** C8, refuted as stated: a press at (5, 7) while a drag anchored at
    (0, 0) is active moves the anchor to (5, 7). *)
Lemma repress_ignored_counterexample :
  ~ repress_ignored 5 7 draggingController.
Proof.
  unfold repress_ignored. intros Hclaim.
  specialize (Hclaim eq_refl).
  apply (f_equal (fun c => x (previousMousePosition c))) in Hclaim.
  simpl in Hclaim. lra.
Qed.

(** C8, amended: a press of the primary button while the drag is active
    leaves the drag flag set and the target pose, the current pose and the
    camera as they are, and records the pointer position as the new
    anchor; it changes nothing exactly when the pointer is on the old
    anchor. *)
Theorem repress_moves_anchor (px py : R) (c : Controller) :
  isDragging c = true ->
  let c' := onDragStart px py c in
  isDragging c' = true /\
  targetSpherical c' = targetSpherical c /\
  spherical c' = spherical c /\
  cameraPosition c' = cameraPosition c /\
  previousMousePosition c' = mkPoint px py /\
  (c' = c <-> previousMousePosition c = mkPoint px py).
Proof.
  intros Hdrag c'. unfold c', onDragStart, onMouseDown. simpl.
  repeat split.
  - intros Heq. rewrite <- Heq. reflexivity.
  - intros Hanchor. destruct c as [d p s t v]. simpl in *.
    subst. reflexivity.
Qed.

Lemma repress_moves_anchor_witness :
  previousMousePosition (onDragStart 5 7 draggingController) = mkPoint 5 7.
Proof.
  apply (repress_moves_anchor 5 7 draggingController). reflexivity.
Defined.

(** C9: while no drag is active, a sequence of pointer moves, whatever
    its length, positions and viewport heights, leaves the target pose (and
    the rest of the controller) as it is after every one of its calls. *)
Theorem moves_without_drag (moves : list (R * MouseEvent)) (c : Controller) :
  isDragging c = false ->
  forall n : nat,
    let c' := run c (map (fun m => MouseMove (fst m) (snd m)) (firstn n moves)) in
    targetSpherical c' = targetSpherical c /\ c' = c.
Proof.
  intros Hidle n. revert n c Hidle.
  induction moves as [|[h e] rest IH]; intros n c Hidle c'.
  - unfold c'. rewrite firstn_nil. simpl. auto.
  - destruct n as [|n].
    + unfold c'. simpl. auto.
    + unfold c'. simpl. unfold run in IH |- *. simpl.
      rewrite onMouseMove_inactive by exact Hidle.
      apply IH. exact Hidle.
Qed.

Lemma moves_without_drag_witness :
  targetSpherical
    (run restingController
         [MouseMove 800 (mkMouseEvent 0 150 80);
          MouseMove 600 (mkMouseEvent 0 (-30) 4000)])
  = targetSpherical restingController.
Proof.
  apply (moves_without_drag
           [(800, mkMouseEvent 0 150 80); (600, mkMouseEvent 0 (-30) 4000)]
           restingController eq_refl 2%nat).
Defined.

(** * Properties of [loadModel] *)

Close Scope R_scope.

Section LoadModel.

(** What a call does before it suspends: the model [diamond] refers to,
    if any, leaves the scene; [diamond] itself is not reset. *)
Lemma loadModel_call_eq (modelUrl : string) (w : World) :
  loadModel_call modelUrl w =
  (Normal tt,
   mkWorld (diamond w)
           (match diamond w with
            | Some o => children_remove o (sceneChildren w)
            | None => sceneChildren w
            end)
           (consoleErrors w)).
Proof.
  unfold loadModel_call, bind, read_diamond, scene_remove, ret.
  destruct w as [[o|] cs errs]; reflexivity.
Qed.

(** A successful load makes its model the diamond and adds it. *)
Lemma loadModel_resume_fulfilled (modelUrl : string) (g : GLTF) (w : World) :
  loadModel_resume modelUrl (Fulfilled g) w =
  (Normal tt,
   mkWorld (Some (modelOf g)) (children_add (modelOf g) (sceneChildren w))
           (consoleErrors w)).
Proof. reflexivity. Qed.

(** A failed load is caught and logged; nothing else changes. *)
Lemma loadModel_resume_rejected (modelUrl : string) (e : JsError) (w : World) :
  loadModel_resume modelUrl (Rejected e) w =
  (Normal tt,
   mkWorld (diamond w) (sceneChildren w)
           (consoleErrors w ++
            [(("An error happened while loading the model: " ++ modelUrl)%string,
              e)])).
Proof. reflexivity. Qed.

Lemma loadModel_resume_normal (modelUrl : string) (loaded : Settled GLTF)
      (w : World) :
  fst (loadModel_resume modelUrl loaded w) = Normal tt.
Proof. destruct loaded; reflexivity. Qed.

Lemma children_add_In (o : Object3D) (cs : list Object3D) :
  In o (children_add o cs).
Proof. unfold children_add. apply in_or_app. right. left. reflexivity. Qed.

Lemma children_remove_subset (o c : Object3D) (cs : list Object3D) :
  In c (children_remove o cs) -> In c cs.
Proof.
  induction cs as [|c0 rest IH]; simpl; [tauto|].
  destruct (Nat.eqb (object_id c0) (object_id o)).
  - intros Hin. right. exact Hin.
  - intros [Heq | Hin]; [left; exact Heq | right; apply IH, Hin].
Qed.

(** With one object per [id], a removed object is gone. *)
Lemma children_remove_gone (o : Object3D) (cs : list Object3D) :
  NoDup (map object_id cs) ->
  forall c, In c (children_remove o cs) -> object_id c <> object_id o.
Proof.
  induction cs as [|c0 rest IH]; simpl; intros Hnd c Hin; [tauto|].
  inversion Hnd as [|i ids Hnotin Hnd']; subst.
  destruct (Nat.eqb (object_id c0) (object_id o)) eqn:Heqb.
  - apply Nat.eqb_eq in Heqb. intros Hc. apply Hnotin.
    rewrite Heqb, <- Hc. apply in_map, Hin.
  - destruct Hin as [Heq | Hin].
    + subst c. apply Nat.eqb_neq, Heqb.
    + apply IH; assumption.
Qed.

End LoadModel.

Section Calls.

Lemma find_call_In (k : nat) (l : list (nat * string)) (url : string) :
  find_call k l = Some url -> In (k, url) l.
Proof.
  induction l as [|[k' u] rest IH]; simpl; [discriminate|].
  destruct (Nat.eqb k' k) eqn:Heqb.
  - intros Hsome. injection Hsome as ->. apply Nat.eqb_eq in Heqb.
    subst. left. reflexivity.
  - intros Hsome. right. apply IH, Hsome.
Qed.

Lemma find_call_fresh (k : nat) (l l' : list (nat * string)) :
  ~ In k (map fst l) -> find_call k (l ++ l') = find_call k l'.
Proof.
  induction l as [|[k' u] rest IH]; simpl; intros Hfresh; [reflexivity|].
  destruct (Nat.eqb k' k) eqn:Heqb.
  - apply Nat.eqb_eq in Heqb. tauto.
  - apply IH. tauto.
Qed.

Lemma drop_call_fresh (k : nat) (l l' : list (nat * string)) :
  ~ In k (map fst l) -> drop_call k (l ++ l') = l ++ drop_call k l'.
Proof.
  induction l as [|[k' u] rest IH]; simpl; intros Hfresh; [reflexivity|].
  destruct (Nat.eqb k' k) eqn:Heqb.
  - apply Nat.eqb_eq in Heqb. tauto.
  - f_equal. apply IH. tauto.
Qed.

Lemma drop_call_In (k k' : nat) (url : string) (l : list (nat * string)) :
  NoDup (map fst l) -> In (k', url) (drop_call k l) ->
  In (k', url) l /\ k' <> k.
Proof.
  induction l as [|[k0 u] rest IH]; simpl; intros Hnd Hin; [tauto|].
  inversion Hnd as [|i ids Hnotin Hnd']; subst.
  destruct (Nat.eqb k0 k) eqn:Heqb.
  - apply Nat.eqb_eq in Heqb. subst k0. split; [right; exact Hin|].
    intros ->. apply Hnotin.
    change k with (fst (k, url)). apply in_map, Hin.
  - destruct Hin as [Heq | Hin].
    + injection Heq as -> ->. split; [left; reflexivity|].
      apply Nat.eqb_neq, Heqb.
    + destruct (IH Hnd' Hin) as [Hin' Hne]. split; [right; exact Hin' | exact Hne].
Qed.

Lemma drop_call_NoDup (k : nat) (l : list (nat * string)) :
  NoDup (map fst l) -> NoDup (map fst (drop_call k l)).
Proof.
  induction l as [|[k0 u] rest IH]; simpl; intros Hnd; [constructor|].
  inversion Hnd as [|i ids Hnotin Hnd']; subst.
  destruct (Nat.eqb k0 k); [exact Hnd'|].
  simpl. constructor; [|apply IH, Hnd'].
  intros Hin. apply Hnotin.
  apply in_map_iff in Hin. destruct Hin as [[k1 u1] [Hfst Hin]].
  simpl in Hfst. subst k1.
  destruct (drop_call_In k k0 u1 rest Hnd' Hin) as [Hin' _].
  change k0 with (fst (k0, u1)). apply in_map, Hin'.
Qed.

Lemma set_promise_same (k : nat) (p : option (Settled unit))
      (l : list (option (Settled unit))) :
  (k < List.length l)%nat -> nth_error (set_promise k p l) k = Some p.
Proof.
  revert k. induction l as [|q rest IH]; intros k Hlt; simpl in Hlt; [lia|].
  destruct k as [|k]; simpl; [reflexivity|]. apply IH. lia.
Qed.

Lemma set_promise_other (k j : nat) (p : option (Settled unit))
      (l : list (option (Settled unit))) :
  j <> k -> nth_error (set_promise k p l) j = nth_error l j.
Proof.
  revert k j. induction l as [|q rest IH]; intros k j Hne; simpl.
  - destruct k; reflexivity.
  - destruct k as [|k], j as [|j]; simpl; try reflexivity; try congruence.
    apply IH. congruence.
Qed.

Lemma suspended_issued (rt : Runtime) :
  runtime_ok rt -> ~ In (List.length (promises rt)) (map fst (suspended rt)).
Proof.
  intros (_ & Hpending & _) Hin.
  apply in_map_iff in Hin. destruct Hin as [[k u] [Hfst Hin]].
  simpl in Hfst. subst k.
  specialize (Hpending _ _ Hin).
  assert (Hsome : nth_error (promises rt) (List.length (promises rt)) <> None)
    by congruence.
  apply nth_error_Some in Hsome. lia.
Qed.

End Calls.

Section Reachable.

Lemma boot_ok (w : World) : runtime_ok (boot w).
Proof.
  unfold runtime_ok, boot; simpl. split; [constructor|]. split.
  - intros k url [].
  - intros k p Hnth. destruct k; discriminate.
Qed.

Lemma step_call_eq (rt : Runtime) (modelUrl : string) :
  step rt (CallLoadModel modelUrl) =
  mkRuntime (snd (loadModel_call modelUrl (world rt)))
            (suspended rt ++ [(List.length (promises rt), modelUrl)])
            (promises rt ++ [None]).
Proof. unfold step. rewrite loadModel_call_eq. reflexivity. Qed.

Lemma step_call_ok (rt : Runtime) (modelUrl : string) :
  runtime_ok rt -> runtime_ok (step rt (CallLoadModel modelUrl)).
Proof.
  intros Hok. pose proof (suspended_issued rt Hok) as Hfresh.
  destruct Hok as (Hnd & Hpending & Hnone).
  rewrite step_call_eq. unfold runtime_ok; simpl.
  split; [|split].
  - rewrite map_app. simpl. apply NoDup_app; [exact Hnd | | ].
    + constructor; [intros [] | constructor].
    + intros k Hin [Heq | []]. subst k. exact (Hfresh Hin).
  - intros k url Hin. apply in_app_or in Hin. destruct Hin as [Hin | [Heq | []]].
    + specialize (Hpending _ _ Hin).
      rewrite nth_error_app1; [exact Hpending|].
      apply nth_error_Some. congruence.
    + injection Heq as <- <-.
      rewrite nth_error_app2 by lia. rewrite Nat.sub_diag. reflexivity.
  - intros k p Hnth.
    destruct (Nat.lt_ge_cases k (List.length (promises rt))) as [Hlt | Hge].
    + rewrite nth_error_app1 in Hnth by exact Hlt. apply (Hnone _ _ Hnth).
    + rewrite nth_error_app2 in Hnth by exact Hge.
      destruct (k - List.length (promises rt))%nat as [|[|j]];
        simpl in Hnth; try discriminate.
      injection Hnth as <-. left. reflexivity.
Qed.

Lemma step_settled_ok (rt : Runtime) (k : nat) (loaded : Settled GLTF) :
  runtime_ok rt -> runtime_ok (step rt (LoadSettled k loaded)).
Proof.
  intros Hok. unfold step.
  destruct (find_call k (suspended rt)) as [url|] eqn:Hfind; [|exact Hok].
  destruct Hok as (Hnd & Hpending & Hnone).
  unfold runtime_ok; simpl. split; [|split].
  - apply drop_call_NoDup, Hnd.
  - intros k' u Hin.
    destruct (drop_call_In _ _ _ _ Hnd Hin) as [Hin' Hne].
    rewrite set_promise_other by exact Hne. apply (Hpending _ _ Hin').
  - intros j p Hnth. destruct (Nat.eq_dec j k) as [-> | Hne].
    + apply find_call_In in Hfind. specialize (Hpending _ _ Hfind).
      rewrite set_promise_same in Hnth
        by (apply nth_error_Some; congruence).
      injection Hnth as <-. right.
      rewrite loadModel_resume_normal. reflexivity.
    + rewrite set_promise_other in Hnth by exact Hne.
      apply (Hnone _ _ Hnth).
Qed.

Lemma steps_ok (evs : list SwapEvent) :
  forall rt, runtime_ok rt -> runtime_ok (steps rt evs).
Proof.
  unfold steps. induction evs as [|ev rest IH]; intros rt Hok; simpl.
  - exact Hok.
  - apply IH. destruct ev as [url | k loaded].
    + apply step_call_ok, Hok.
    + apply step_settled_ok, Hok.
Qed.

(** A call followed, at any later time at which it is still suspended,
    by the settlement of its load. *)
Lemma step_settled_eq (rt : Runtime) (k : nat) (modelUrl : string)
      (loaded : Settled GLTF) :
  find_call k (suspended rt) = Some modelUrl ->
  step rt (LoadSettled k loaded) =
  mkRuntime (snd (loadModel_resume modelUrl loaded (world rt)))
            (drop_call k (suspended rt))
            (set_promise k (Some (Fulfilled tt)) (promises rt)).
Proof.
  intros Hfind. unfold step. rewrite Hfind.
  rewrite loadModel_resume_normal. reflexivity.
Qed.

End Reachable.

Section Swaps.

Lemma find_call_drop_other (k j : nat) (l : list (nat * string)) :
  j <> k -> find_call j (drop_call k l) = find_call j l.
Proof.
  intros Hne. induction l as [|[k0 u] rest IH]; simpl; [reflexivity|].
  destruct (Nat.eqb k0 k) eqn:Hk.
  - apply Nat.eqb_eq in Hk. subst k0.
    destruct (Nat.eqb k j) eqn:Hj; [|reflexivity].
    apply Nat.eqb_eq in Hj. congruence.
  - simpl. destruct (Nat.eqb k0 j); [reflexivity | exact IH].
Qed.

Lemma find_call_last (k : nat) (url : string) (l : list (nat * string)) :
  ~ In k (map fst l) -> find_call k (l ++ [(k, url)]) = Some url.
Proof.
  intros Hfresh. rewrite find_call_fresh by exact Hfresh.
  simpl. rewrite Nat.eqb_refl. reflexivity.
Qed.

(** The call just made is suspended under the next call number. *)
Lemma called_is_suspended (rt : Runtime) (modelUrl : string) :
  runtime_ok rt ->
  find_call (List.length (promises rt))
            (suspended (step rt (CallLoadModel modelUrl))) = Some modelUrl.
Proof.
  intros Hok. rewrite step_call_eq. simpl.
  apply find_call_last, suspended_issued, Hok.
Qed.

(** A later call does not disturb the suspension of an earlier one. *)
Lemma call_keeps_suspended (rt : Runtime) (k : nat) (url modelUrl : string) :
  find_call k (suspended rt) = Some url ->
  find_call k (suspended (step rt (CallLoadModel modelUrl))) = Some url.
Proof.
  intros Hfind. rewrite step_call_eq. simpl.
  induction (suspended rt) as [|[k0 u] rest IH]; simpl in *; [discriminate|].
  destruct (Nat.eqb k0 k); [exact Hfind | apply IH, Hfind].
Qed.

(** Nor does the settlement of another call. *)
Lemma settled_keeps_suspended (rt : Runtime) (k j : nat) (url : string)
      (loaded : Settled GLTF) :
  j <> k ->
  find_call j (suspended rt) = Some url ->
  find_call j (suspended (step rt (LoadSettled k loaded))) = Some url.
Proof.
  intros Hne Hfind. unfold step.
  destruct (find_call k (suspended rt)); [|exact Hfind].
  simpl. rewrite find_call_drop_other by exact Hne. exact Hfind.
Qed.

Lemma settled_fulfilled_world (rt : Runtime) (k : nat) (url : string)
      (g : GLTF) :
  find_call k (suspended rt) = Some url ->
  world (step rt (LoadSettled k (Fulfilled g))) =
  mkWorld (Some (modelOf g))
          (children_add (modelOf g) (sceneChildren (world rt)))
          (consoleErrors (world rt)).
Proof.
  intros Hfind. rewrite (step_settled_eq rt k url _ Hfind).
  reflexivity.
Qed.

Lemma settled_rejected_world (rt : Runtime) (k : nat) (url : string)
      (e : JsError) :
  find_call k (suspended rt) = Some url ->
  world (step rt (LoadSettled k (Rejected e))) =
  mkWorld (diamond (world rt)) (sceneChildren (world rt))
          (consoleErrors (world rt) ++
           [(("An error happened while loading the model: " ++ url)%string,
             e)]).
Proof.
  intros Hfind. rewrite (step_settled_eq rt k url _ Hfind).
  reflexivity.
Qed.

End Swaps.

(** ** [loadModel] on small inputs *)

Example first_load :
  world (steps (boot initialWorld)
           [requestSwap "/models/diamond.glb"%string;
            LoadSettled 0 (Fulfilled gltfA)])
  = showingWorld.
Proof. reflexivity. Qed.

Example swaps_one_after_the_other :
  world (steps (boot initialWorld)
           [requestSwap "/models/diamond.glb"%string;
            LoadSettled 0 (Fulfilled gltfA);
            requestSwap "/models/dflat.glb"%string;
            LoadSettled 1 (Fulfilled gltfB)])
  = mkWorld (Some (modelOf gltfB)) [plane; modelOf gltfB] [].
Proof. reflexivity. Qed.

Example swaps_overlapping_out_of_order :
  world (steps (boot initialWorld)
           [requestSwap "/models/diamond.glb"%string;
            requestSwap "/models/dflat.glb"%string;
            LoadSettled 1 (Fulfilled gltfB);
            LoadSettled 0 (Fulfilled gltfA)])
  = mkWorld (Some (modelOf gltfA)) [plane; modelOf gltfB; modelOf gltfA] [].
Proof. reflexivity. Qed.

Example load_settles_once :
  steps (boot initialWorld)
        [requestSwap "/models/diamond.glb"%string;
         LoadSettled 0 (Fulfilled gltfA);
         LoadSettled 0 (Rejected "late"%string)]
  = steps (boot initialWorld)
          [requestSwap "/models/diamond.glb"%string;
           LoadSettled 0 (Fulfilled gltfA)].
Proof. reflexivity. Qed.

(** C10: in every state the page can reach, no promise returned by
    [loadModel] is rejected; a call of [loadModel] returns a pending promise
    and suspends; and when the load of a suspended call settles, fulfilled
    or rejected, the promise of that call is fulfilled, a rejection being
    caught and reported by one [console.error] that names the model and
    changing nothing else. *)
Theorem loadModel_promise_fulfils (w : World) (evs : list SwapEvent) :
  let rt := steps (boot w) evs in
  (forall (k : nat) (e : JsError),
      nth_error (promises rt) k <> Some (Some (Rejected e))) /\
  (forall modelUrl : string,
      let k := List.length (promises rt) in
      let rt1 := step rt (CallLoadModel modelUrl) in
      nth_error (promises rt1) k = Some None /\
      find_call k (suspended rt1) = Some modelUrl) /\
  (forall (k : nat) (modelUrl : string) (loaded : Settled GLTF),
      find_call k (suspended rt) = Some modelUrl ->
      let rt' := step rt (LoadSettled k loaded) in
      nth_error (promises rt') k = Some (Some (Fulfilled tt)) /\
      forall e : JsError,
        loaded = Rejected e ->
        world rt' =
        mkWorld (diamond (world rt)) (sceneChildren (world rt))
                (consoleErrors (world rt) ++
                 [(("An error happened while loading the model: "
                      ++ modelUrl)%string, e)])).
Proof.
  intros rt.
  assert (Hok : runtime_ok rt) by (apply steps_ok, boot_ok).
  split; [|split].
  - intros k e Hnth. destruct Hok as (_ & _ & Hnone).
    destruct (Hnone _ _ Hnth); discriminate.
  - intros modelUrl k rt1. split.
    + unfold rt1. rewrite step_call_eq. simpl.
      rewrite nth_error_app2 by (unfold k; lia).
      unfold k. rewrite Nat.sub_diag. reflexivity.
    + apply called_is_suspended, Hok.
  - intros k modelUrl loaded Hfind rt'. split.
    + unfold rt'. rewrite (step_settled_eq rt k modelUrl loaded Hfind). simpl.
      apply set_promise_same.
      destruct Hok as (_ & Hpending & _).
      apply find_call_In in Hfind. specialize (Hpending _ _ Hfind).
      apply nth_error_Some. congruence.
    + intros e ->. apply settled_rejected_world, Hfind.
Qed.

Lemma loadModel_promise_fulfils_witness :
  nth_error
    (promises
       (step (steps (boot initialWorld) [requestSwap "/models/dflat.glb"%string])
             (LoadSettled 0 (Rejected "404 Not Found"%string))))
    0
  = Some (Some (Fulfilled tt)).
Proof.
  pose proof (loadModel_promise_fulfils initialWorld
                [requestSwap "/models/dflat.glb"%string]) as Hthm.
  cbv zeta in Hthm. destruct Hthm as (_ & _ & Hsettled).
  apply (Hsettled 0%nat "/models/dflat.glb"%string).
  reflexivity.
Defined.

(** C1, refuted as stated: when the load for "B" settles before the load
    for "A", the model loaded for "A" is the diamond in the end. *)
Lemma stale_completion_discarded_counterexample :
  ~ stale_completion_discarded initialWorld "A"%string "B"%string gltfA gltfB.
Proof.
  intros Hclaim.
  destruct (Hclaim _ (or_intror eq_refl)) as [Hdiamond _].
  vm_compute in Hdiamond. discriminate Hdiamond.
Qed.

(** C1, amended: there is no discarding.  Of two overlapping requests,
    each successful load, when it settles, makes its model the diamond and
    puts it in the scene; after both have settled the diamond is the model
    of the load that settled last, the second request's when the loads
    settle in request order and the first request's otherwise. *)
Theorem last_completion_wins (w : World) (evs : list SwapEvent)
        (a b : string) (ga gb : GLTF) :
  let rt := steps (boot w) evs in
  let ka := List.length (promises rt) in
  let kb := S ka in
  let requested := steps rt [requestSwap a; requestSwap b] in
  let a_done := step requested (LoadSettled ka (Fulfilled ga)) in
  let b_done := step requested (LoadSettled kb (Fulfilled gb)) in
  let a_then_b := step a_done (LoadSettled kb (Fulfilled gb)) in
  let b_then_a := step b_done (LoadSettled ka (Fulfilled ga)) in
  (diamond (world a_done) = Some (modelOf ga) /\
   In (modelOf ga) (sceneChildren (world a_done))) /\
  (diamond (world b_done) = Some (modelOf gb) /\
   In (modelOf gb) (sceneChildren (world b_done))) /\
  (diamond (world a_then_b) = Some (modelOf gb) /\
   In (modelOf gb) (sceneChildren (world a_then_b))) /\
  (diamond (world b_then_a) = Some (modelOf ga) /\
   In (modelOf ga) (sceneChildren (world b_then_a))).
Proof.
  intros rt ka kb requested a_done b_done a_then_b b_then_a.
  assert (Hok : runtime_ok rt) by (apply steps_ok, boot_ok).
  assert (Hok1 : runtime_ok (step rt (requestSwap a)))
    by (apply step_call_ok, Hok).
  assert (Hlen : List.length (promises (step rt (requestSwap a))) = kb).
  { unfold requestSwap. rewrite step_call_eq. simpl.
    rewrite length_app. simpl. unfold kb, ka. lia. }
  assert (Ha : find_call ka (suspended requested) = Some a).
  { unfold requested. simpl. apply call_keeps_suspended.
    apply called_is_suspended, Hok. }
  assert (Hb : find_call kb (suspended requested) = Some b).
  { unfold requested. simpl. rewrite <- Hlen.
    apply called_is_suspended, Hok1. }
  assert (Hne : ka <> kb) by (unfold kb; lia).
  assert (Hb' : find_call kb (suspended a_done) = Some b).
  { apply settled_keeps_suspended; [congruence | exact Hb]. }
  assert (Ha' : find_call ka (suspended b_done) = Some a).
  { apply settled_keeps_suspended; [congruence | exact Ha]. }
  unfold a_then_b, b_then_a.
  rewrite (settled_fulfilled_world _ _ _ gb Hb').
  rewrite (settled_fulfilled_world _ _ _ ga Ha').
  unfold a_done, b_done.
  rewrite (settled_fulfilled_world _ _ _ ga Ha).
  rewrite (settled_fulfilled_world _ _ _ gb Hb).
  simpl. repeat split; apply children_add_In.
Qed.

(** C2, refuted as stated: with a model on show, a request whose load
    fails leaves the scene with the plane alone. *)
Lemma failed_swap_keeps_scene_counterexample :
  ~ failed_swap_keeps_scene showingWorld "X"%string "404 Not Found"%string.
Proof.
  intros (_ & Hscene & _). vm_compute in Hscene. discriminate Hscene.
Qed.

(** C2, amended: a request whose load fails leaves [diamond] referring to
    what it referred to and logs exactly one error, naming the model; the
    model [diamond] refers to is taken out of the scene when the request is
    made and is not put back, so that the scene is as before only when
    there was no diamond (or it was not in the scene); no other child of the
    scene is touched. *)
Theorem failed_swap_detaches (w : World) (evs : list SwapEvent)
        (modelUrl : string) (e : JsError) :
  let rt := steps (boot w) evs in
  let k := List.length (promises rt) in
  let before := world rt in
  let after :=
    world (steps rt [requestSwap modelUrl; LoadSettled k (Rejected e)]) in
  diamond after = diamond before /\
  consoleErrors after =
    consoleErrors before ++
    [(("An error happened while loading the model: " ++ modelUrl)%string, e)] /\
  sceneChildren after =
    match diamond before with
    | Some o => children_remove o (sceneChildren before)
    | None => sceneChildren before
    end /\
  (diamond before = None -> sceneChildren after = sceneChildren before) /\
  (forall o, diamond before = Some o ->
             NoDup (map object_id (sceneChildren before)) ->
             ~ In o (sceneChildren after)) /\
  (forall c, In c (sceneChildren after) -> In c (sceneChildren before)).
Proof.
  intros rt k before after.
  assert (Hok : runtime_ok rt) by (apply steps_ok, boot_ok).
  assert (Hworld : after =
            mkWorld (diamond before)
                    (match diamond before with
                     | Some o => children_remove o (sceneChildren before)
                     | None => sceneChildren before
                     end)
                    (consoleErrors before ++
                     [(("An error happened while loading the model: "
                          ++ modelUrl)%string, e)])).
  { unfold after, steps. cbn [fold_left].
    rewrite (settled_rejected_world _ k modelUrl e)
      by (apply called_is_suspended, Hok).
    unfold requestSwap. rewrite step_call_eq. simpl.
    rewrite loadModel_call_eq. reflexivity. }
  rewrite Hworld. simpl. repeat split.
  - intros Hnone. rewrite Hnone. reflexivity.
  - intros o Hsome Hnd Hin. rewrite Hsome in Hin.
    apply (children_remove_gone o _ Hnd o Hin). reflexivity.
  - intros c. destruct (diamond before) as [o|]; [|tauto].
    apply children_remove_subset.
Qed.

Lemma failed_swap_detaches_witness :
  ~ In (modelOf gltfA)
       (sceneChildren
          (world (steps (steps (boot showingWorld) [])
                        [requestSwap "X"%string;
                         LoadSettled 0 (Rejected "404 Not Found"%string)]))).
Proof.
  apply (failed_swap_detaches showingWorld [] "X"%string
           "404 Not Found"%string).
  - reflexivity.
  - simpl. repeat constructor; simpl; intuition discriminate.
Defined.

(** C3, the run that breaks it: two requests, the second made while the
    first is loading, then both loads succeed.  Each call removed the
    diamond of its time (none) before loading, neither removes the model
    the other one added, and the scene ends with both models. *)
Theorem overlapping_swaps_attach_two :
  attachedModels
    (world (steps (boot initialWorld)
              [requestSwap "/models/diamond.glb"%string;
               requestSwap "/models/dflat.glb"%string;
               LoadSettled 0 (Fulfilled gltfA);
               LoadSettled 1 (Fulfilled gltfB)]))
  = [modelOf gltfA; modelOf gltfB].
Proof. reflexivity. Qed.

(** * Further properties of the camera control *)

Open Scope R_scope.

Section Startup.

Lemma initial_radius : 5 <= sqrt (0 * 0 + 2 * 2 + 5 * 5) <= 6.
Proof.
  set (r := sqrt (0 * 0 + 2 * 2 + 5 * 5)).
  assert (Hr : 0 <= r) by apply sqrt_pos.
  assert (Hrr : r * r = 0 * 0 + 2 * 2 + 5 * 5) by (apply sqrt_sqrt; lra).
  split; nra.
Qed.

(** An angle of [[0, PI]] with a positive cosine of at most [2/5] is
    well inside the polar limits. *)
Lemma polar_from_cosine (a : R) :
  0 <= a <= PI -> 0 < cos a <= 2 / 5 ->
  minPolarAngle <= a <= maxPolarAngle.
Proof.
  intros [Ha0 Ha1] [Hc0 Hc1]. unfold minPolarAngle, maxPolarAngle.
  pose proof PI2_1 as Hpi. split.
  - destruct (Rle_dec 0.05 a) as [Hle | Hnle]; [exact Hle|].
    exfalso.
    assert (Hsin : sin a < 0.05).
    { destruct Ha0 as [Hpos | Hzero].
      - apply Rlt_trans with a; [apply sin_lt_x, Hpos | lra].
      - subst a. rewrite sin_0. lra. }
    assert (Hsin0 : 0 <= sin a) by (apply sin_ge_0; lra).
    pose proof (sin2_cos2 a) as Hone. unfold Rsqr in Hone. nra.
  - destruct (Rle_dec a (PI - 0.05)) as [Hle | Hnle]; [exact Hle|].
    exfalso.
    assert (Hneg : cos a < 0) by (apply cos_lt_0; lra).
    lra.
Qed.

Lemma initialController_ok : controller_ok initialController.
Proof.
  pose proof initial_radius as [Hr5 Hr6].
  assert (Hpose : pose_ok (setFromVector3 cameraStart)).
  { unfold setFromVector3, cameraStart, setFromCartesianCoords; simpl.
    set (r := sqrt (0 * 0 + 2 * 2 + 5 * 5)) in *.
    destruct (Req_dec_T r 0) as [Hz | Hnz]; [lra|].
    assert (Hq : 1 / 3 <= 2 / r <= 2 / 5).
    { split.
      - apply Rmult_le_reg_r with r; [lra|]. field_simplify; lra.
      - apply Rmult_le_reg_r with r; [lra|]. field_simplify; lra. }
    assert (Hclamp : clamp (2 / r) (-1) 1 = 2 / r)
      by (unfold clamp; apply clamp_id; lra).
    unfold pose_ok; simpl. rewrite Hclamp. split.
    - apply polar_from_cosine.
      + apply acos_bound.
      + rewrite cos_acos by lra. lra.
    - unfold minRadius, maxRadius. lra. }
  unfold controller_ok, initialController; simpl.
  split; [|exact Hpose].
  destruct Hpose as [Hphi Hrad]. split; simpl; assumption.
Qed.

Lemma initial_poses_agree :
  targetSpherical initialController = spherical initialController.
Proof.
  unfold initialController; simpl.
  destruct (setFromVector3 cameraStart); reflexivity.
Qed.

End Startup.

(** X1: the state [init] sets up, with the camera at (0, 2, 5), has both
    poses equal and within the limits, so that from it every sequence of
    mouse, wheel and frame events, in a viewport whose height is not 0
    when a move is handled, keeps the polar angles within
    [[0.05, PI - 0.05]] and the radii within [[1, 20]]. *)
Theorem startup_pose_limits (inputs : list Input) :
  Forall viewport_ok inputs ->
  let c := run initialController inputs in
  targetSpherical initialController = spherical initialController /\
  0.05 <= phi (targetSpherical c) <= PI - 0.05 /\
  0.05 <= phi (spherical c) <= PI - 0.05 /\
  1 <= radius (targetSpherical c) <= 20 /\
  1 <= radius (spherical c) <= 20.
Proof.
  intros _ c. split; [exact initial_poses_agree|].
  destruct (run_ok inputs initialController initialController_ok)
    as [[Htp Htr] [Hsp Hsr]].
  fold c in Htp, Htr, Hsp, Hsr.
  unfold minPolarAngle, maxPolarAngle in Htp, Hsp.
  unfold minRadius, maxRadius in Htr, Hsr.
  repeat split; lra.
Qed.

Lemma startup_pose_limits_witness :
  1 <= radius (targetSpherical (run initialController wildInputs)) <= 20.
Proof.
  apply (startup_pose_limits wildInputs). exact wildInputs_viewport.
Defined.

Section InputsAndFrames.

Lemma animate_inputState (c : Controller) :
  inputState (animate c) = inputState c.
Proof. reflexivity. Qed.

(** What a handler does to the drag flag, the anchor and the target
    depends on nothing else. *)
Lemma handle_inputState (c c' : Controller) (i : Input) :
  inputState c = inputState c' ->
  inputState (handle c i) = inputState (handle c' i).
Proof.
  unfold inputState. intros Heq. injection Heq as Hd Hp Ht.
  destruct i as [e | h e | | e | ]; simpl.
  - unfold onMouseDown. destruct (Z.eqb (button e) 0); simpl; congruence.
  - unfold onMouseMove. rewrite Hd.
    destruct (negb (isDragging c')); simpl; congruence.
  - congruence.
  - congruence.
  - congruence.
Qed.

Lemma run_inputState (inputs : list Input) :
  forall c c', inputState c = inputState c' ->
               inputState (run c inputs) = inputState (run c' (withoutFrames inputs)).
Proof.
  unfold run, withoutFrames.
  induction inputs as [|i rest IH]; intros c c' Heq; [exact Heq|].
  cbn [fold_left filter].
  destruct (isFrame i) eqn:Hf; cbn [negb fold_left]; apply IH.
  - destruct i; try discriminate. exact Heq.
  - apply handle_inputState, Heq.
Qed.

(** Handlers other than [animate] move neither the current pose nor the
    camera. *)
Lemma handle_keeps_camera (c : Controller) (i : Input) :
  isFrame i = false ->
  spherical (handle c i) = spherical c /\
  cameraPosition (handle c i) = cameraPosition c.
Proof.
  destruct i as [e | h e | | e | ]; simpl; intros Hnf; try discriminate.
  - unfold onMouseDown. destruct (Z.eqb (button e) 0); simpl; auto.
  - unfold onMouseMove. destruct (negb (isDragging c)); simpl; auto.
  - auto.
  - auto.
Qed.

Lemma run_without_frames (inputs : list Input) :
  forall c, spherical (run c (withoutFrames inputs)) = spherical c /\
            cameraPosition (run c (withoutFrames inputs)) = cameraPosition c.
Proof.
  unfold run, withoutFrames.
  induction inputs as [|i rest IH]; intros c; simpl; [auto|].
  destruct (isFrame i) eqn:Hf; simpl; [apply IH|].
  destruct (IH (handle c i)) as [Hs Hc].
  destruct (handle_keeps_camera c i Hf) as [Hs' Hc'].
  split; congruence.
Qed.




End InputsAndFrames.

(** X4: animation frames never steer.  The drag flag, the drag anchor
    and the target pose after a sequence of events are those the same
    events give with every frame left out; and the events other than frames
    never move the current pose or the camera. *)
Theorem frames_do_not_steer (c : Controller) (inputs : list Input) :
  inputState (run c inputs) = inputState (run c (withoutFrames inputs)) /\
  spherical (run c (withoutFrames inputs)) = spherical c /\
  cameraPosition (run c (withoutFrames inputs)) = cameraPosition c.
Proof.
  split.
  - apply run_inputState. reflexivity.
  - apply run_without_frames.
Qed.



Section Gestures.

Lemma onDragMove_active (h px py : R) (c : Controller) :
  isDragging c = true ->
  onDragMove h px py c =
  mkController true (mkPoint px py) (spherical c)
    (mkSpherical
       (radius (targetSpherical c))
       (Rmax minPolarAngle
          (Rmin maxPolarAngle
             (phi (targetSpherical c)
              - (py - y (previousMousePosition c)) * rotationSpeed * (PI / h))))
       (theta (targetSpherical c)
        - (px - x (previousMousePosition c)) * rotationSpeed * (PI / h)))
    (cameraPosition c).
Proof.
  intros Hd. unfold onDragMove, onMouseMove. rewrite Hd. reflexivity.
Qed.

End Gestures.

(** * Further properties of [loadModel] *)

Close Scope R_scope.

Section SceneGraph.

(** Induction on a scene subtree, with the property known of all
    children. *)
Lemma Object3D_children_ind (P : Object3D -> Prop) :
  (forall i m cs, Forall P cs -> P (Mesh i m cs)) ->
  (forall i cs, Forall P cs -> P (Group i cs)) ->
  forall o, P o.
Proof.
  intros HM HG. fix IH 1.
  intros [i m cs | i cs].
  - apply HM. induction cs as [|c cs IHcs]; constructor; [apply IH | exact IHcs].
  - apply HG. induction cs as [|c cs IHcs]; constructor; [apply IH | exact IHcs].
Qed.

Lemma flat_map_map {A B C : Type} (f : A -> B) (g : B -> list C) (l : list A) :
  flat_map g (map f l) = flat_map (fun a => g (f a)) l.
Proof.
  induction l as [|a l IH]; simpl; [reflexivity|]. rewrite IH. reflexivity.
Qed.

Lemma flat_map_ext_Forall {A B : Type} (f g : A -> list B) (l : list A) :
  Forall (fun a => f a = g a) l -> flat_map f l = flat_map g l.
Proof.
  induction 1 as [|a l Ha _ IH]; simpl; [reflexivity|].
  rewrite Ha, IH. reflexivity.
Qed.

Lemma Forall_flat_map {A B : Type} (P : B -> Prop) (f : A -> list B)
      (l : list A) :
  Forall (fun a => Forall P (f a)) l -> Forall P (flat_map f l).
Proof.
  induction 1 as [|a l Ha _ IH]; simpl; [constructor|].
  apply Forall_app. split; assumption.
Qed.

Lemma traverse_materials (m : Material) (o : Object3D) :
  Forall (fun m' => m' = m) (meshMaterials (traverse_setMaterial m o)).
Proof.
  induction o as [i m0 cs IH | i cs IH] using Object3D_children_ind; simpl.
  - constructor; [reflexivity|].
    rewrite flat_map_map. apply Forall_flat_map. exact IH.
  - rewrite flat_map_map. apply Forall_flat_map. exact IH.
Qed.

Lemma traverse_nodeIds (m : Material) (o : Object3D) :
  nodeIds (traverse_setMaterial m o) = nodeIds o.
Proof.
  induction o as [i m0 cs IH | i cs IH] using Object3D_children_ind; simpl;
    rewrite flat_map_map; f_equal; apply flat_map_ext_Forall; exact IH.
Qed.

Lemma traverse_mesh_count (m : Material) (o : Object3D) :
  List.length (meshMaterials (traverse_setMaterial m o)) =
  List.length (meshMaterials o).
Proof.
  induction o as [i m0 cs IH | i cs IH] using Object3D_children_ind; simpl.
  - f_equal. rewrite flat_map_map.
    induction IH as [|c cs Hc _ IHcs]; simpl; [reflexivity|].
    rewrite !length_app, Hc, IHcs. reflexivity.
  - rewrite flat_map_map.
    induction IH as [|c cs Hc _ IHcs]; simpl; [reflexivity|].
    rewrite !length_app, Hc, IHcs. reflexivity.
Qed.

Lemma traverse_idempotent (m : Material) (o : Object3D) :
  traverse_setMaterial m (traverse_setMaterial m o) = traverse_setMaterial m o.
Proof.
  induction o as [i m0 cs IH | i cs IH] using Object3D_children_ind; simpl;
    f_equal; rewrite map_map; apply map_ext_Forall; exact IH.
Qed.

End SceneGraph.

(** X8: when a load succeeds, the model that becomes the diamond and
    enters the scene has the shared diamond material on every one of its
    meshes, at any depth, and is otherwise the loaded scene: the same nodes
    in the same order, as many meshes, a group at its root; a second pass
    of the material would change nothing. *)
Theorem loaded_model_wears_diamond (modelUrl : string) (g : GLTF) (w : World) :
  let w' := snd (loadModel_resume modelUrl (Fulfilled g) w) in
  diamond w' = Some (modelOf g) /\
  In (modelOf g) (sceneChildren w') /\
  Forall (fun m => m = DiamondMaterial) (meshMaterials (modelOf g)) /\
  nodeIds (modelOf g) = nodeIds (gltf_scene g) /\
  List.length (meshMaterials (modelOf g)) =
    List.length (meshMaterials (gltf_scene g)) /\
  isGroup (modelOf g) = true /\
  traverse_setMaterial DiamondMaterial (modelOf g) = modelOf g.
Proof.
  intros w'. unfold w'. rewrite loadModel_resume_fulfilled.
  cbn [snd diamond sceneChildren].
  split; [reflexivity|]. split; [apply children_add_In|].
  unfold modelOf.
  split; [apply traverse_materials|]. split; [apply traverse_nodeIds|].
  split; [apply traverse_mesh_count|]. split; [reflexivity|].
  apply traverse_idempotent.
Qed.

Section OneModel.

Lemma children_remove_NoDup (o : Object3D) (cs : list Object3D) :
  NoDup (map object_id cs) -> NoDup (map object_id (children_remove o cs)).
Proof.
  induction cs as [|c rest IH]; simpl; intros Hnd; [constructor|].
  inversion Hnd as [|i ids Hnotin Hnd']; subst.
  destruct (Nat.eqb (object_id c) (object_id o)); [exact Hnd'|].
  simpl. constructor; [|apply IH, Hnd'].
  intros Hin. apply Hnotin.
  apply in_map_iff in Hin. destruct Hin as [c' [Hid Hin]].
  rewrite <- Hid. apply in_map. apply (children_remove_subset o c' rest Hin).
Qed.

Lemma children_remove_other (o c : Object3D) (cs : list Object3D) :
  In c cs -> object_id c <> object_id o -> In c (children_remove o cs).
Proof.
  induction cs as [|c0 rest IH]; simpl; intros Hin Hne; [tauto|].
  destruct (Nat.eqb (object_id c0) (object_id o)) eqn:Heqb.
  - destruct Hin as [Heq | Hin]; [|exact Hin].
    subst c0. apply Nat.eqb_eq in Heqb. tauto.
  - destruct Hin as [Heq | Hin]; [left; exact Heq | right; apply IH; assumption].
Qed.

Lemma children_add_NoDup (o : Object3D) (cs : list Object3D) :
  NoDup (map object_id cs) -> NoDup (map object_id (children_add o cs)).
Proof.
  intros Hnd. unfold children_add. rewrite map_app. simpl.
  apply NoDup_app.
  - apply children_remove_NoDup, Hnd.
  - constructor; [intros [] | constructor].
  - intros i Hin [Heq | []]. subst i.
    apply in_map_iff in Hin. destruct Hin as [c [Hid Hin]].
    apply (children_remove_gone o cs Hnd c Hin Hid).
Qed.

Lemma children_add_other (o c : Object3D) (cs : list Object3D) :
  In c cs -> object_id c <> object_id o -> In c (children_add o cs).
Proof.
  intros Hin Hne. unfold children_add. apply in_or_app. left.
  apply children_remove_other; assumption.
Qed.

Lemma no_element_nil {A : Type} (l : list A) :
  (forall a, ~ In a l) -> l = [].
Proof.
  destruct l as [|a l]; [reflexivity|]. intros Hno.
  exfalso. apply (Hno a). left. reflexivity.
Qed.

Lemma filter_remove_nil (o : Object3D) (cs : list Object3D) :
  filter isGroup cs = [] -> filter isGroup (children_remove o cs) = [].
Proof.
  intros Hnil. apply no_element_nil. intros c Hin.
  apply filter_In in Hin. destruct Hin as [Hin Hg].
  assert (Hc : In c (filter isGroup cs)).
  { apply filter_In. split; [|exact Hg].
    apply (children_remove_subset o c cs Hin). }
  rewrite Hnil in Hc. exact Hc.
Qed.

(** A scene in which the only model is the diamond shows at most one. *)
Lemma one_model_at_most_one (w : World) :
  one_model w -> (List.length (attachedModels w) <= 1)%nat.
Proof.
  intros [Hnd Hdiamond]. unfold attachedModels in *.
  assert (Hsub : NoDup (map object_id (filter isGroup (sceneChildren w)))).
  { revert Hnd. generalize (sceneChildren w) as cs.
    induction cs as [|c cs IH]; simpl; intros Hnd; [constructor|].
    inversion Hnd as [|i ids Hnotin Hnd']; subst.
    destruct (isGroup c); [|apply IH, Hnd'].
    simpl. constructor; [|apply IH, Hnd'].
    intros Hin. apply Hnotin.
    apply in_map_iff in Hin. destruct Hin as [c' [Hid Hin]].
    apply filter_In in Hin. rewrite <- Hid. apply in_map, Hin. }
  destruct (filter isGroup (sceneChildren w)) as [|a [|b rest]]; simpl; try lia.
  exfalso.
  destruct (Hdiamond a (or_introl eq_refl)) as [d [Hd Ha]].
  destruct (Hdiamond b (or_intror (or_introl eq_refl))) as [d' [Hd' Hb]].
  rewrite Hd in Hd'. injection Hd' as <-.
  simpl in Hsub. inversion Hsub as [|i ids Hnotin _]; subst.
  apply Hnotin. left. congruence.
Qed.

(** A call takes the only model out. *)
Lemma call_empties_scene (modelUrl : string) (w : World) :
  one_model w ->
  let w' := snd (loadModel_call modelUrl w) in
  NoDup (map object_id (sceneChildren w')) /\ attachedModels w' = [].
Proof.
  intros [Hnd Hdiamond] w'. unfold w'. rewrite loadModel_call_eq.
  unfold attachedModels in *. cbn [snd sceneChildren].
  destruct (diamond w) as [d|] eqn:Hd.
  - split; [apply children_remove_NoDup, Hnd|].
    apply no_element_nil. intros c Hin.
    apply filter_In in Hin. destruct Hin as [Hin Hg].
    destruct (Hdiamond c) as [d' [Hd' Hid]].
    + apply filter_In. split; [|exact Hg].
      apply (children_remove_subset d c _ Hin).
    + injection Hd' as <-.
      apply (children_remove_gone d _ Hnd c Hin). congruence.
  - split; [exact Hnd|].
    apply no_element_nil. intros c Hin.
    destruct (Hdiamond c Hin) as [d' [Hd' _]]. discriminate.
Qed.

(** A successful load into a scene without model shows its model alone. *)
Lemma fulfilled_shows_one (modelUrl : string) (g : GLTF) (w : World) :
  NoDup (map object_id (sceneChildren w)) -> attachedModels w = [] ->
  let w' := snd (loadModel_resume modelUrl (Fulfilled g) w) in
  one_model w' /\ attachedModels w' = [modelOf g] /\
  diamond w' = Some (modelOf g).
Proof.
  intros Hnd Hnone w'. unfold w'. rewrite loadModel_resume_fulfilled.
  unfold attachedModels in *. cbn [snd sceneChildren diamond].
  assert (Hatt : filter isGroup (children_add (modelOf g) (sceneChildren w))
                 = [modelOf g]).
  { unfold children_add. rewrite filter_app.
    rewrite (filter_remove_nil _ _ Hnone). reflexivity. }
  split; [|split; [exact Hatt | reflexivity]].
  split; cbn [sceneChildren diamond].
  - apply children_add_NoDup, Hnd.
  - unfold attachedModels. cbn [sceneChildren]. rewrite Hatt.
    intros c [Hc | []]. subst c. exists (modelOf g). split; reflexivity.
Qed.

Lemma rejected_keeps_scene (modelUrl : string) (e : JsError) (w : World) :
  NoDup (map object_id (sceneChildren w)) -> attachedModels w = [] ->
  let w' := snd (loadModel_resume modelUrl (Rejected e) w) in
  one_model w' /\ attachedModels w' = [].
Proof.
  intros Hnd Hnone w'. unfold w'. rewrite loadModel_resume_rejected.
  unfold one_model, attachedModels in *. cbn [snd sceneChildren diamond].
  split; [|exact Hnone]. split; [exact Hnd|].
  rewrite Hnone. intros c [].
Qed.

Lemma set_promise_length (k : nat) (p : option (Settled unit))
      (l : list (option (Settled unit))) :
  List.length (set_promise k p l) = List.length l.
Proof.
  revert k. induction l as [|q rest IH]; intros k; simpl.
  - destruct k; reflexivity.
  - destruct k as [|k]; simpl; [reflexivity|]. rewrite IH. reflexivity.
Qed.

(** One swap from an idle page: the state after the call and after the
    settlement. *)
Lemma one_swap (rt : Runtime) (modelUrl : string) (loaded : Settled GLTF) :
  suspended rt = [] -> one_model (world rt) ->
  let k := List.length (promises rt) in
  let rt1 := step rt (CallLoadModel modelUrl) in
  let rt2 := step rt1 (LoadSettled k loaded) in
  attachedModels (world rt1) = [] /\
  suspended rt2 = [] /\
  List.length (promises rt2) = S k /\
  one_model (world rt2) /\
  (forall g, loaded = Fulfilled g ->
             attachedModels (world rt2) = [modelOf g] /\
             diamond (world rt2) = Some (modelOf g)).
Proof.
  intros Hidle Hone k rt1 rt2.
  destruct (call_empties_scene modelUrl (world rt) Hone) as [Hnd Hnone].
  assert (Hrt1 : rt1 = mkRuntime (snd (loadModel_call modelUrl (world rt)))
                                 [(k, modelUrl)] (promises rt ++ [None])).
  { unfold rt1. rewrite step_call_eq, Hidle. reflexivity. }
  assert (Hfind : find_call k (suspended rt1) = Some modelUrl).
  { rewrite Hrt1. simpl. rewrite Nat.eqb_refl. reflexivity. }
  assert (Hrt2 : rt2 = mkRuntime
                         (snd (loadModel_resume modelUrl loaded (world rt1)))
                         (drop_call k (suspended rt1))
                         (set_promise k (Some (Fulfilled tt)) (promises rt1)))
    by (apply step_settled_eq, Hfind).
  split; [rewrite Hrt1; exact Hnone|].
  rewrite Hrt2. cbn [suspended promises world].
  split; [rewrite Hrt1; simpl; rewrite Nat.eqb_refl; reflexivity|].
  split.
  { rewrite set_promise_length, Hrt1. cbn [promises].
    rewrite length_app. simpl. unfold k. lia. }
  rewrite Hrt1. cbn [world].
  destruct loaded as [g | e].
  - destruct (fulfilled_shows_one modelUrl g _ Hnd Hnone) as (H1 & H2 & H3).
    split; [exact H1|]. intros g' Hg. injection Hg as <-. split; assumption.
  - destruct (rejected_keeps_scene modelUrl e _ Hnd Hnone) as (H1 & H2).
    split; [exact H1|]. intros g' Hg. discriminate.
Qed.

Lemma sequential_instants (l : list (string * Settled GLTF)) :
  forall (rt : Runtime) (n : nat),
    suspended rt = [] -> one_model (world rt) ->
    (List.length
       (attachedModels
          (world (steps rt (firstn n (sequentialSwaps (List.length (promises rt)) l)))))
     <= 1)%nat.
Proof.
  induction l as [|[modelUrl loaded] rest IH]; intros rt n Hidle Hone.
  - simpl. rewrite firstn_nil. apply one_model_at_most_one, Hone.
  - destruct (one_swap rt modelUrl loaded Hidle Hone)
      as (Hcall & Hidle2 & Hlen2 & Hone2 & _).
    destruct n as [|[|n]].
    + apply one_model_at_most_one, Hone.
    + cbn [sequentialSwaps firstn steps fold_left]. rewrite Hcall. simpl. lia.
    + cbn [sequentialSwaps firstn steps fold_left].
      rewrite <- Hlen2. apply (IH _ n Hidle2 Hone2).
Qed.

Lemma sequential_end (l : list (string * Settled GLTF)) :
  forall rt : Runtime,
    suspended rt = [] -> one_model (world rt) ->
    let rt' := steps rt (sequentialSwaps (List.length (promises rt)) l) in
    suspended rt' = [] /\ one_model (world rt') /\
    List.length (promises rt') = (List.length (promises rt) + List.length l)%nat.
Proof.
  induction l as [|[modelUrl loaded] rest IH]; intros rt Hidle Hone rt'.
  - unfold rt'. simpl. repeat split; try assumption; try apply Hone. lia.
  - destruct (one_swap rt modelUrl loaded Hidle Hone)
      as (_ & Hidle2 & Hlen2 & Hone2 & _).
    unfold rt'. cbn [sequentialSwaps steps fold_left].
    rewrite <- Hlen2.
    destruct (IH _ Hidle2 Hone2) as (H1 & H2 & H3).
    split; [exact H1|]. split; [exact H2|].
    unfold steps in H3. rewrite H3, Hlen2. simpl. lia.
Qed.

Lemma sequentialSwaps_app (l l' : list (string * Settled GLTF)) :
  forall k, sequentialSwaps k (l ++ l') =
            sequentialSwaps k l ++ sequentialSwaps (k + List.length l) l'.
Proof.
  induction l as [|[modelUrl loaded] rest IH]; intros k; simpl.
  - rewrite Nat.add_0_r. reflexivity.
  - rewrite IH.
    replace (S k + List.length rest)%nat with (k + S (List.length rest))%nat
      by lia.
    reflexivity.
Qed.

End OneModel.

(** X9: swaps made one after the other never show two models.  From a
    scene of distinct objects whose only model, if any, is the diamond, and
    whatever the loads deliver or fail with, at every instant of a sequence
    of swaps in which each load settles before the next request, at most
    one model is in the scene; and when the last load succeeds, its model
    is the diamond and the only model in the scene. *)
Theorem sequential_swaps_one_model (w : World)
        (l : list (string * Settled GLTF)) :
  one_model w ->
  (forall n : nat,
      (List.length
         (attachedModels
            (world (steps (boot w) (firstn n (sequentialSwaps 0 l)))))
       <= 1)%nat) /\
  (forall (earlier : list (string * Settled GLTF)) (modelUrl : string)
          (g : GLTF),
      l = earlier ++ [(modelUrl, Fulfilled g)] ->
      let w' := world (steps (boot w) (sequentialSwaps 0 l)) in
      attachedModels w' = [modelOf g] /\ diamond w' = Some (modelOf g)).
Proof.
  intros Hone. split.
  - intros n. apply (sequential_instants l (boot w) n eq_refl Hone).
  - intros earlier modelUrl g -> w'. unfold w'.
    rewrite sequentialSwaps_app. unfold steps. rewrite fold_left_app.
    fold (steps (boot w) (sequentialSwaps 0 earlier)).
    destruct (sequential_end earlier (boot w) eq_refl Hone) as (Hidle & Hone' & Hlen).
    simpl in Hlen. cbn [boot promises List.length] in Hidle, Hone'.
    set (rt := steps (boot w) (sequentialSwaps 0 earlier)) in *.
    cbn [sequentialSwaps fold_left]. rewrite <- Hlen.
    destruct (one_swap rt modelUrl (Fulfilled g) Hidle Hone')
      as (_ & _ & _ & _ & Hlast).
    apply (Hlast g eq_refl).
Qed.

Lemma initialWorld_one_model : one_model initialWorld.
Proof.
  split.
  - simpl. constructor; [intros [] | constructor].
  - intros c [].
Qed.

Lemma sequential_swaps_one_model_witness :
  (List.length
     (attachedModels
        (world
           (steps (boot initialWorld)
              (firstn 3
                 (sequentialSwaps 0
                    [("/models/diamond.glb"%string, Fulfilled gltfA);
                     ("/models/missing.glb"%string,
                      Rejected "404 Not Found"%string);
                     ("/models/dflat.glb"%string, Fulfilled gltfB)])))))
   <= 1)%nat.
Proof.
  apply (sequential_swaps_one_model initialWorld
           [("/models/diamond.glb"%string, Fulfilled gltfA);
            ("/models/missing.glb"%string, Rejected "404 Not Found"%string);
            ("/models/dflat.glb"%string, Fulfilled gltfB)]).
  exact initialWorld_one_model.
Defined.

Section Bookkeeping.

Lemma step_world_cases (rt : Runtime) (ev : SwapEvent) :
  let w := world rt in
  let w' := world (step rt ev) in
  match ev with
  | CallLoadModel modelUrl => w' = snd (loadModel_call modelUrl w)
  | LoadSettled k loaded =>
      w' = w \/ exists modelUrl, w' = snd (loadModel_resume modelUrl loaded w)
  end.
Proof.
  destruct ev as [modelUrl | k loaded]; cbn zeta.
  - rewrite step_call_eq. reflexivity.
  - unfold step. destruct (find_call k (suspended rt)) as [modelUrl|].
    + right. exists modelUrl. reflexivity.
    + left. reflexivity.
Qed.

End Bookkeeping.

(** X10: [loadModel] removes nothing but models.  A child of the scene
    whose [id] is neither that of the diamond nor that of any model a load
    delivers, such as the checkerboard plane, is still in the scene after
    every sequence of calls and settlements, overlapping or not. *)
Theorem other_children_stay (rt : Runtime) (evs : list SwapEvent)
        (c : Object3D) :
  In c (sceneChildren (world rt)) ->
  (forall d, diamond (world rt) = Some d -> object_id d <> object_id c) ->
  ~ In (object_id c) (loadedIds evs) ->
  In c (sceneChildren (world (steps rt evs))).
Proof.
  revert rt. unfold steps.
  induction evs as [|ev rest IH]; intros rt Hin Hd Hfresh; [exact Hin|].
  cbn [fold_left]. pose proof (step_world_cases rt ev) as Hcases.
  cbn zeta in Hcases.
  destruct ev as [modelUrl | k [g | e]].
  - rewrite loadModel_call_eq in Hcases. cbn [snd] in Hcases.
    apply IH; [rewrite Hcases | rewrite Hcases | exact Hfresh];
      cbn [sceneChildren diamond].
    + destruct (diamond (world rt)) as [d|] eqn:Hdia; [|exact Hin].
      apply children_remove_other; [exact Hin|].
      intros Heq. apply (Hd d eq_refl). congruence.
    + exact Hd.
  - assert (Hne : object_id c <> gltf_scene_id g)
      by (intros Heq; apply Hfresh; left; congruence).
    assert (Hrest : ~ In (object_id c) (loadedIds rest))
      by (intros Hin'; apply Hfresh; right; exact Hin').
    destruct Hcases as [Hsame | [modelUrl Hres]].
    + apply IH; [rewrite Hsame | rewrite Hsame | ]; assumption.
    + rewrite loadModel_resume_fulfilled in Hres. cbn [snd] in Hres.
      apply IH; [rewrite Hres | rewrite Hres | exact Hrest];
        cbn [sceneChildren diamond].
      * apply children_add_other; [exact Hin | exact Hne].
      * intros d Heq. injection Heq as <-. simpl. congruence.
  - destruct Hcases as [Hsame | [modelUrl Hres]].
    + apply IH; [rewrite Hsame | rewrite Hsame | ]; assumption.
    + rewrite loadModel_resume_rejected in Hres. cbn [snd] in Hres.
      apply IH; [rewrite Hres | rewrite Hres | ];
        cbn [sceneChildren diamond]; assumption.
Qed.

Lemma other_children_stay_witness :
  In plane
     (sceneChildren
        (world (steps (boot initialWorld)
                  [requestSwap "/models/diamond.glb"%string;
                   requestSwap "/models/dflat.glb"%string;
                   LoadSettled 1 (Fulfilled gltfB);
                   LoadSettled 0 (Fulfilled gltfA)]))).
Proof.
  apply (other_children_stay (boot initialWorld)
           [requestSwap "/models/diamond.glb"%string;
            requestSwap "/models/dflat.glb"%string;
            LoadSettled 1 (Fulfilled gltfB);
            LoadSettled 0 (Fulfilled gltfA)] plane).
  - left. reflexivity.
  - intros d Hd. discriminate Hd.
  - simpl. intros [H | [H | []]]; discriminate H.
Defined.

(** X11: [loadModel] writes to the console for failed loads only.
    Through any sequence of calls and settlements the console keeps what
    it had and gains at most one line per rejected load, each made of the
    fixed message followed by a model URL; without a rejected load it gains
    none. *)
Theorem console_only_failures (rt : Runtime) (evs : list SwapEvent) :
  exists lines : list (string * JsError),
    consoleErrors (world (steps rt evs)) = consoleErrors (world rt) ++ lines /\
    (List.length lines <= failedLoads evs)%nat /\
    Forall (fun line =>
              exists modelUrl : string,
                fst line =
                ("An error happened while loading the model: " ++ modelUrl)%string)
           lines.
Proof.
  revert rt. unfold steps.
  induction evs as [|ev rest IH]; intros rt.
  - exists []. simpl. rewrite app_nil_r. repeat split; [lia | constructor].
  - cbn [fold_left]. destruct (IH (step rt ev)) as (lines & Heq & Hlen & Hall).
    pose proof (step_world_cases rt ev) as Hcases. cbn zeta in Hcases.
    destruct ev as [modelUrl | k [g | e]].
    + exists lines. rewrite Heq, Hcases, loadModel_call_eq.
      repeat split; assumption.
    + exists lines. rewrite Heq.
      destruct Hcases as [-> | [modelUrl ->]];
        [|rewrite loadModel_resume_fulfilled]; repeat split; assumption.
    + destruct Hcases as [Hsame | [modelUrl Hres]].
      * exists lines. rewrite Heq, Hsame. repeat split; try assumption.
        simpl. lia.
      * exists ((("An error happened while loading the model: " ++ modelUrl)%string, e)
                  :: lines).
        rewrite Heq, Hres, loadModel_resume_rejected. cbn [snd consoleErrors].
        rewrite <- app_assoc. repeat split.
        -- simpl. lia.
        -- constructor; [exists modelUrl; reflexivity | exact Hall].
Qed.

(** X12: [diamond] is never reset and never made up.  After any sequence
    of calls and settlements it is what it was or a model that one of the
    successful loads delivered, and once it refers to a model it refers to
    one for good, also after failed loads. *)
Theorem diamond_provenance (rt : Runtime) (evs : list SwapEvent) :
  let d' := diamond (world (steps rt evs)) in
  (d' = diamond (world rt) \/
   exists o, In o (loadedModels evs) /\ d' = Some o) /\
  (diamond (world rt) <> None -> d' <> None).
Proof.
  cbn zeta. revert rt. unfold steps.
  induction evs as [|ev rest IH]; intros rt.
  - simpl. split; [left; reflexivity | tauto].
  - cbn [fold_left]. destruct (IH (step rt ev)) as [Hprov Hsome].
    pose proof (step_world_cases rt ev) as Hcases. cbn zeta in Hcases.
    destruct ev as [modelUrl | k [g | e]].
    + assert (Hd : diamond (world (step rt (CallLoadModel modelUrl)))
                   = diamond (world rt))
        by (rewrite Hcases, loadModel_call_eq; reflexivity).
      rewrite Hd in Hprov, Hsome. split; assumption.
    + destruct Hcases as [Hsame | [modelUrl Hres]].
      * rewrite Hsame in Hprov, Hsome. split; [|exact Hsome].
        destruct Hprov as [Heq | [o [Hin Heq]]]; [left; exact Heq|].
        right. exists o. split; [right; exact Hin | exact Heq].
      * rewrite loadModel_resume_fulfilled in Hres. cbn [snd] in Hres.
        rewrite Hres in Hprov, Hsome. cbn [diamond] in Hprov, Hsome.
        split.
        -- right. destruct Hprov as [Heq | [o [Hin Heq]]].
           ++ exists (modelOf g). split; [left; reflexivity | exact Heq].
           ++ exists o. split; [right; exact Hin | exact Heq].
        -- intros _. apply Hsome. discriminate.
    + assert (Hd : diamond (world (step rt (LoadSettled k (Rejected e))))
                   = diamond (world rt)).
      { destruct Hcases as [Hsame | [modelUrl Hres]].
        - rewrite Hsame. reflexivity.
        - rewrite Hres, loadModel_resume_rejected. reflexivity. }
      rewrite Hd in Hprov, Hsome. split; assumption.
Qed.

Lemma diamond_provenance_witness :
  diamond
    (world (steps (boot showingWorld)
              [requestSwap "/models/missing.glb"%string;
               LoadSettled 0 (Rejected "404 Not Found"%string)]))
  <> None.
Proof.
  apply (diamond_provenance (boot showingWorld)
           [requestSwap "/models/missing.glb"%string;
            LoadSettled 0 (Rejected "404 Not Found"%string)]).
  discriminate.
Defined.

(** * Properties of [init], [main] and the checkerboard *)

Section PageInvariant.

Lemma withRuntime_same (p : Page) : withRuntime (runtime p) p = p.
Proof. destruct p; reflexivity. Qed.

Lemma step_settled_idle (rt : Runtime) (k : nat) (loaded : Settled GLTF) :
  suspended rt = [] -> step rt (LoadSettled k loaded) = rt.
Proof. intros Hidle. unfold step. rewrite Hidle. reflexivity. Qed.

Lemma init_begin_ok : page_ok (init_begin pageLoaded).
Proof.
  unfold page_ok; simpl. repeat split; reflexivity.
Qed.

Lemma init_after_hdr_ok (hdr : Settled unit) (context2d : bool) (p : Page) :
  phase p = AwaitingHdr -> page_ok p -> page_ok (init_after_hdr hdr context2d p).
Proof.
  intros Hphase Hok. unfold page_ok in Hok. rewrite Hphase in Hok.
  destruct Hok as (Hc & Hrt & Hmenu & Hl & Hloop).
  unfold init_after_hdr.
  destruct hdr as [u | err].
  - destruct context2d; simpl.
    + unfold page_ok; simpl. rewrite Hrt. simpl.
      repeat split; try assumption; try reflexivity.
      * constructor; [intros [] | constructor].
      * intros k url [Heq | []]. injection Heq as <- <-. reflexivity.
      * intros k p0 Hnth. destruct k as [|[|k]]; simpl in Hnth; try discriminate.
        injection Hnth as <-. left. reflexivity.
    + unfold page_ok; simpl. rewrite Hrt. simpl.
      repeat split; try assumption.
      exists "Could not get 2D context from canvas"%string. reflexivity.
  - unfold page_ok; simpl. rewrite Hrt. simpl.
    repeat split; try assumption. exists err. reflexivity.
Qed.

Lemma pageStep_ok (p : Page) (ev : PageEvent) : page_ok p -> page_ok (pageStep p ev).
Proof.
  intros Hok.
  destruct ev as [ | hdr ctx | url | k loaded | t h m wh | ]; cbn [pageStep].
  - destruct (phase p) eqn:Hphase; try exact Hok.
    unfold page_ok in Hok. rewrite Hphase in Hok. subst p.
    exact init_begin_ok.
  - destruct (phase p) eqn:Hphase; try exact Hok.
    apply init_after_hdr_ok; assumption.
  - destruct (modelMenu p) eqn:Hmenu; [|exact Hok].
    unfold page_ok in *. simpl.
    destruct (phase p) eqn:Hphase.
    + subst p. discriminate.
    + destruct Hok as (_ & _ & Hm & _). congruence.
    + destruct Hok as (Hk & Hc & Hrt & Hfind & Hm & Hl & Hloop).
      repeat split; try assumption.
      * apply step_call_ok, Hrt.
      * apply step_call_ok, Hrt.
      * apply step_call_ok, Hrt.
      * apply call_keeps_suspended, Hfind.
    + destruct Hok as (Hrt & Hm & Hl & Hloop).
      repeat split; try assumption; apply step_call_ok, Hrt.
    + destruct Hok as (_ & _ & Hm & _). congruence.
  - unfold page_ok in Hok.
    destruct (phase p) eqn:Hphase.
    + subst p. reflexivity.
    + destruct Hok as (Hc & Hrt & Hm & Hl & Hloop).
      rewrite Hrt. rewrite step_settled_idle by reflexivity.
      rewrite <- Hrt, withRuntime_same.
      unfold page_ok. rewrite Hphase. repeat split; assumption.
    + destruct Hok as (Hk & Hc & Hrt & Hfind & Hm & Hl & Hloop). subst call.
      destruct (Nat.eqb 0 k) eqn:Hk0.
      * apply Nat.eqb_eq in Hk0. subst k.
        pose proof (step_settled_ok (runtime p) 0 loaded Hrt) as Hrt'.
        assert (Hlt : (0 < List.length (promises (runtime p)))%nat).
        { destruct Hrt as (_ & Hpending & _).
          apply find_call_In in Hfind. specialize (Hpending _ _ Hfind).
          apply nth_error_Some. congruence. }
        assert (Hnth : nth_error
                         (promises (step (runtime p) (LoadSettled 0 loaded))) 0
                       = Some (Some (Fulfilled tt))).
        { rewrite (step_settled_eq _ 0 defaultModel loaded Hfind).
          cbn [promises]. apply set_promise_same, Hlt. }
        cbn [withRuntime runtime]. rewrite Hnth.
        unfold page_ok, init_finish.
        cbn [phase runtime modelMenu listeners animationLoop controller].
        unfold withRuntime.
        cbn [phase runtime modelMenu listeners animationLoop controller].
        rewrite Hl. cbn [app].
        split; [exact Hrt'|]. split; [exact Hm|]. split; reflexivity.
      * apply Nat.eqb_neq in Hk0.
        pose proof (step_settled_ok (runtime p) k loaded Hrt) as Hrt'.
        unfold page_ok, withRuntime.
        cbn [phase runtime modelMenu listeners animationLoop controller].
        rewrite Hphase.
        split; [reflexivity|]. split; [exact Hc|]. split; [exact Hrt'|].
        split; [|split; [exact Hm|split; assumption]].
        apply settled_keeps_suspended; [congruence | exact Hfind].
    + destruct Hok as (Hrt & Hm & Hl & Hloop).
      pose proof (step_settled_ok (runtime p) k loaded Hrt) as Hrt'.
      unfold page_ok, withRuntime.
      cbn [phase runtime modelMenu listeners animationLoop controller].
      rewrite Hphase.
      split; [exact Hrt'|]. split; [exact Hm|]. split; assumption.
    + destruct Hok as (Hc & [err Hrt] & Hm & Hl & Hloop).
      rewrite Hrt. rewrite step_settled_idle by reflexivity.
      rewrite <- Hrt, withRuntime_same.
      unfold page_ok. rewrite Hphase. repeat split; try assumption.
      exists err. exact Hrt.
  - destruct (listenerFor t (listeners p)) as [hd|] eqn:Hls; [|exact Hok].
    unfold page_ok in *. simpl.
    destruct (phase p) eqn:Hphase.
    + subst p. discriminate.
    + destruct Hok as (_ & _ & _ & Hl & _). rewrite Hl in Hls. discriminate.
    + destruct Hok as (_ & _ & _ & _ & _ & Hl & _). rewrite Hl in Hls. discriminate.
    + exact Hok.
    + destruct Hok as (_ & _ & _ & Hl & _). rewrite Hl in Hls. discriminate.
  - destruct (animationLoop p) eqn:Hloop; [|exact Hok].
    unfold page_ok in *. simpl.
    destruct (phase p) eqn:Hphase.
    + subst p. discriminate.
    + destruct Hok as (_ & _ & _ & _ & Hf). congruence.
    + destruct Hok as (_ & _ & _ & _ & _ & _ & Hf). congruence.
    + exact Hok.
    + destruct Hok as (_ & _ & _ & _ & Hf). congruence.
Qed.

Lemma pageRun_ok (evs : list PageEvent) :
  forall p, page_ok p -> page_ok (pageRun p evs).
Proof.
  unfold pageRun. induction evs as [|ev rest IH]; intros p Hok; simpl.
  - exact Hok.
  - apply IH, pageStep_ok, Hok.
Qed.

Lemma pageLoaded_ok : page_ok pageLoaded.
Proof. reflexivity. Qed.

End PageInvariant.

Section Startup2.

Lemma pageRun_app (p : Page) (evs evs' : list PageEvent) :
  pageRun p (evs ++ evs') = pageRun (pageRun p evs) evs'.
Proof. unfold pageRun. apply fold_left_app. Qed.

(** A page whose start-up failed ignores every event. *)
Lemma failed_page_ignores (p : Page) (ev : PageEvent) :
  page_ok p -> phase p = InitFailed -> pageStep p ev = p.
Proof.
  intros Hok Hphase. unfold page_ok in Hok. rewrite Hphase in Hok.
  destruct Hok as (Hc & [err Hrt] & Hm & Hl & Hloop).
  destruct ev as [ | hdr ctx | url | k loaded | t h m wh | ]; cbn [pageStep];
    rewrite ?Hphase, ?Hm, ?Hl, ?Hloop; try reflexivity.
  rewrite Hrt, step_settled_idle by reflexivity.
  rewrite <- Hrt. apply withRuntime_same.
Qed.

Lemma failed_page_stays (later : list PageEvent) (p : Page) :
  page_ok p -> phase p = InitFailed -> pageRun p later = p.
Proof.
  intros Hok Hphase. unfold pageRun.
  induction later as [|ev rest IH]; simpl; [reflexivity|].
  rewrite (failed_page_ignores p ev Hok Hphase). exact IH.
Qed.

(** Calls of [loadModel] while there is no diamond leave the variables
    alone and disturb no earlier call. *)
Lemma calls_without_diamond (urls : list string) :
  forall rt : Runtime,
    diamond (world rt) = None ->
    let rt' := steps rt (map CallLoadModel urls) in
    world rt' = world rt /\
    (forall k url, find_call k (suspended rt) = Some url ->
                   find_call k (suspended rt') = Some url) /\
    (forall k v, nth_error (promises rt) k = Some v ->
                 nth_error (promises rt') k = Some v).
Proof.
  unfold steps.
  induction urls as [|u rest IH]; intros rt Hnone; cbn [map fold_left].
  - repeat split; auto.
  - assert (Hw : world (step rt (CallLoadModel u)) = world rt).
    { rewrite step_call_eq, loadModel_call_eq. cbn [world snd].
      rewrite Hnone. destruct (world rt) as [d cs errs].
      simpl in Hnone. subst d. reflexivity. }
    destruct (IH (step rt (CallLoadModel u))) as (H1 & H2 & H3).
    { rewrite Hw. exact Hnone. }
    split; [rewrite H1; exact Hw|]. split.
    + intros k url Hfind. apply H2, call_keeps_suspended, Hfind.
    + intros k v Hnth. apply H3. rewrite step_call_eq. cbn [promises].
      rewrite nth_error_app1; [exact Hnth|].
      apply nth_error_Some. congruence.
Qed.

Lemma menu_changes (urls : list string) :
  forall p : Page,
    modelMenu p = true ->
    pageRun p (map MenuChange urls) =
    withRuntime (steps (runtime p) (map CallLoadModel urls)) p.
Proof.
  unfold pageRun, steps.
  induction urls as [|u rest IH]; intros p Hm; cbn [map fold_left].
  - symmetry. apply withRuntime_same.
  - cbn [pageStep]. rewrite Hm. rewrite IH by exact Hm.
    destruct p; reflexivity.
Qed.

End Startup2.

(** ** The start-up on small inputs *)

Example startup_with_model :
  world (runtime (pageRun pageLoaded
                    [CallMain; HdrSettled (Fulfilled tt) true;
                     ModelSettled 0 (Fulfilled gltfA)]))
  = mkWorld (Some (modelOf gltfA)) [plane; modelOf gltfA] [].
Proof. reflexivity. Qed.

Example startup_without_environment :
  world (runtime (pageRun pageLoaded
                    [CallMain; HdrSettled (Rejected "404 Not Found"%string) true;
                     ModelSettled 0 (Fulfilled gltfA)]))
  = mkWorld None []
            [("Failed to initialize the application:"%string,
              "404 Not Found"%string)].
Proof. reflexivity. Qed.

Example menu_before_startup :
  runtime (pageRun pageLoaded [CallMain; MenuChange "/models/dflat.glb"%string])
  = boot (mkWorld None [] []).
Proof. reflexivity. Qed.

(** X13: until [init] has run to its end, nothing moves the camera.  In
    every state the page reaches before the start-up is complete no
    listener is registered and the animation loop is not running, and the
    camera control is as the module declared it (before [main]) or as
    [init] set it (after), whatever mouse, wheel and frame events have
    arrived in between; once the start-up is complete the six listeners
    and the loop are in place. *)
Theorem no_input_before_startup (evs : list PageEvent) :
  let p := pageRun pageLoaded evs in
  (phase p = NotStarted -> p = pageLoaded) /\
  (phase p <> NotStarted -> phase p <> InitDone ->
   controller p = initialController /\
   listeners p = [] /\ animationLoop p = false) /\
  (phase p = InitDone ->
   listeners p =
     [("resize"%string, OnWindowResize);
      ("mousedown"%string, OnMouseDown);
      ("mousemove"%string, OnMouseMove);
      ("mouseup"%string, OnMouseUp);
      ("mouseleave"%string, OnMouseUp);
      ("wheel"%string, OnMouseWheel)] /\
   animationLoop p = true /\ modelMenu p = true).
Proof.
  intros p.
  pose proof (pageRun_ok evs pageLoaded pageLoaded_ok) as Hok. fold p in Hok.
  unfold page_ok in Hok.
  destruct (phase p) eqn:Hphase.
  - split; [intros _; exact Hok|]. split; [congruence | discriminate].
  - destruct Hok as (Hc & _ & _ & Hl & Hloop).
    split; [discriminate|]. split; [auto | discriminate].
  - destruct Hok as (_ & Hc & _ & _ & _ & Hl & Hloop).
    split; [discriminate|]. split; [auto | discriminate].
  - destruct Hok as (_ & Hm & Hl & Hloop).
    split; [discriminate|]. split; [congruence | auto].
  - destruct Hok as (Hc & _ & _ & Hl & Hloop).
    split; [discriminate|]. split; [auto | discriminate].
Qed.

Lemma no_input_before_startup_witness :
  controller
    (pageRun pageLoaded
       [CallMain;
        Dom "mousedown" 800 (mkMouseEvent 0 100 100) (mkWheelEvent 0);
        HdrSettled (Fulfilled tt) true;
        Dom "mousemove" 800 (mkMouseEvent 0 150 80) (mkWheelEvent 0);
        Dom "wheel" 800 (mkMouseEvent 0 150 80) (mkWheelEvent 100);
        AnimationFrame])
  = initialController.
Proof.
  apply (no_input_before_startup
           [CallMain;
            Dom "mousedown" 800 (mkMouseEvent 0 100 100) (mkWheelEvent 0);
            HdrSettled (Fulfilled tt) true;
            Dom "mousemove" 800 (mkMouseEvent 0 150 80) (mkWheelEvent 0);
            Dom "wheel" 800 (mkMouseEvent 0 150 80) (mkWheelEvent 100);
            AnimationFrame]); discriminate.
Defined.

(** X14: a start-up that fails leaves an inert page.  When [init] throws,
    which the invariant shows happens only before any model is requested,
    [main] has logged exactly one line, the scene is empty, there is no
    diamond, no listener, no animation loop and no model menu, and every
    later event leaves the page exactly as it is. *)
Theorem failed_startup_is_inert (evs later : list PageEvent) :
  let p := pageRun pageLoaded evs in
  phase p = InitFailed ->
  pageRun p later = p /\
  (exists err,
      consoleErrors (world (runtime p)) =
      [("Failed to initialize the application:"%string, err)]) /\
  sceneChildren (world (runtime p)) = [] /\
  diamond (world (runtime p)) = None /\
  suspended (runtime p) = [] /\ promises (runtime p) = [] /\
  listeners p = [] /\ animationLoop p = false /\ modelMenu p = false.
Proof.
  intros p Hphase.
  pose proof (pageRun_ok evs pageLoaded pageLoaded_ok) as Hok. fold p in Hok.
  split; [apply failed_page_stays; assumption|].
  unfold page_ok in Hok. rewrite Hphase in Hok.
  destruct Hok as (Hc & [err Hrt] & Hm & Hl & Hloop).
  rewrite Hrt. cbn [boot world runtime consoleErrors sceneChildren diamond
                      suspended promises].
  split; [exists err; reflexivity|]. repeat split; assumption.
Qed.

Lemma failed_startup_is_inert_witness :
  pageRun
    (pageRun pageLoaded [CallMain; HdrSettled (Fulfilled tt) false])
    [MenuChange "/models/dflat.glb"%string;
     Dom "mousedown" 800 (mkMouseEvent 0 100 100) (mkWheelEvent 0);
     AnimationFrame]
  = pageRun pageLoaded [CallMain; HdrSettled (Fulfilled tt) false].
Proof.
  apply (failed_startup_is_inert [CallMain; HdrSettled (Fulfilled tt) false]).
  reflexivity.
Defined.

Section DefaultModel.

(** While [init] waits for the default model, nothing but the settlement
    of that load ends the wait. *)
Lemma awaiting_model_step (p : Page) (ev : PageEvent) :
  phase p = AwaitingModel 0 -> settlesDefault ev = false ->
  phase (pageStep p ev) = AwaitingModel 0.
Proof.
  intros Hphase Hev.
  destruct ev as [ | hdr ctx | url | k loaded | t h m wh | ]; cbn [pageStep].
  - rewrite Hphase. exact Hphase.
  - rewrite Hphase. exact Hphase.
  - destruct (modelMenu p); exact Hphase.
  - rewrite Hphase. destruct k as [|k]; [discriminate|]. exact Hphase.
  - destruct (listenerFor t (listeners p)); exact Hphase.
  - destruct (animationLoop p); exact Hphase.
Qed.

Lemma awaiting_model_run (mid : list PageEvent) :
  forall p : Page,
    phase p = AwaitingModel 0 ->
    forallb (fun ev => negb (settlesDefault ev)) mid = true ->
    phase (pageRun p mid) = AwaitingModel 0.
Proof.
  unfold pageRun.
  induction mid as [|ev rest IH]; intros p Hphase Hmid; [exact Hphase|].
  cbn [forallb] in Hmid. apply andb_prop in Hmid. destruct Hmid as [Hev Hrest].
  cbn [fold_left]. apply IH; [|exact Hrest].
  apply awaiting_model_step; [exact Hphase|].
  destruct (settlesDefault ev); [discriminate | reflexivity].
Qed.

(** The settlement of the default model's load, met while [init] waits
    for it. *)
Lemma default_settled (p : Page) (loaded : Settled GLTF) :
  page_ok p -> phase p = AwaitingModel 0 ->
  pageStep p (ModelSettled 0 loaded) =
  mkPage (controller p)
         (mkRuntime
            (snd (loadModel_resume defaultModel loaded (world (runtime p))))
            (drop_call 0 (suspended (runtime p)))
            (set_promise 0 (Some (Fulfilled tt)) (promises (runtime p))))
         InitDone (modelMenu p)
         [("resize"%string, OnWindowResize);
          ("mousedown"%string, OnMouseDown);
          ("mousemove"%string, OnMouseMove);
          ("mouseup"%string, OnMouseUp);
          ("mouseleave"%string, OnMouseUp);
          ("wheel"%string, OnMouseWheel)]
         true.
Proof.
  intros Hok Hphase. unfold page_ok in Hok. rewrite Hphase in Hok.
  destruct Hok as (_ & Hc & Hrt & Hfind & Hm & Hl & Hloop).
  assert (Hstep := step_settled_eq (runtime p) 0 defaultModel loaded Hfind).
  assert (Hlt : (0 < List.length (promises (runtime p)))%nat).
  { destruct Hrt as (_ & Hpending & _).
    apply find_call_In in Hfind. specialize (Hpending _ _ Hfind).
    apply nth_error_Some. congruence. }
  cbn [pageStep]. rewrite Hphase. cbn [Nat.eqb].
  unfold withRuntime. cbn [runtime]. rewrite Hstep. cbn [promises].
  rewrite set_promise_same by exact Hlt.
  unfold init_finish.
  cbn [controller runtime modelMenu listeners animationLoop].
  rewrite Hl. reflexivity.
Qed.

End DefaultModel.

(** X15: the start-up does not depend on the first model.  When the
    environment map has loaded and the canvas has a 2D context, then
    whatever happens before the load of the default model settles (models
    picked from the menu, loads of picked models settling, mouse, wheel and
    frame events), that settlement, success or failure, completes [init]:
    the listeners are registered and the animation loop runs, with the
    camera control as [init] set it.  A failure adds one line to the
    console, the one of [loadModel], and leaves the diamond and the scene
    as they were; a success makes the loaded model the diamond and puts it
    in the scene.  When nothing but menu picks came in between, a failure
    leaves the plane as the only child of the scene and no diamond, and a
    success shows the loaded model as the only model. *)
Theorem startup_survives_model_failure (mid : list PageEvent)
        (loaded : Settled GLTF) :
  forallb (fun ev => negb (settlesDefault ev)) mid = true ->
  let before := pageRun pageLoaded ([CallMain; HdrSettled (Fulfilled tt) true] ++ mid) in
  let p := pageStep before (ModelSettled 0 loaded) in
  let w0 := world (runtime before) in
  let w := world (runtime p) in
  phase before = AwaitingModel 0 /\
  phase p = InitDone /\
  animationLoop p = true /\
  listenerFor "mousedown" (listeners p) = Some OnMouseDown /\
  listenerFor "mousemove" (listeners p) = Some OnMouseMove /\
  listenerFor "mouseup" (listeners p) = Some OnMouseUp /\
  listenerFor "mouseleave" (listeners p) = Some OnMouseUp /\
  listenerFor "wheel" (listeners p) = Some OnMouseWheel /\
  controller p = initialController /\
  (forall e, loaded = Rejected e ->
             consoleErrors w =
               consoleErrors w0 ++
               [(("An error happened while loading the model: "
                    ++ defaultModel)%string, e)] /\
             sceneChildren w = sceneChildren w0 /\ diamond w = diamond w0) /\
  (forall g, loaded = Fulfilled g ->
             consoleErrors w = consoleErrors w0 /\
             In (modelOf g) (sceneChildren w) /\
             diamond w = Some (modelOf g)) /\
  (forall picks, mid = map MenuChange picks ->
     (forall e, loaded = Rejected e ->
                consoleErrors w =
                  [(("An error happened while loading the model: "
                       ++ defaultModel)%string, e)] /\
                sceneChildren w = [plane] /\ diamond w = None) /\
     (forall g, loaded = Fulfilled g ->
                consoleErrors w = [] /\
                attachedModels w = [modelOf g] /\
                diamond w = Some (modelOf g))).
Proof.
  intros Hmid before p w0 w.
  set (rt2 := mkRuntime (mkWorld None [plane] []) [(0%nat, defaultModel)] [None]).
  set (p2 := mkPage initialController rt2 (AwaitingModel 0) true [] false).
  assert (Hp2 : pageRun pageLoaded [CallMain; HdrSettled (Fulfilled tt) true] = p2)
    by reflexivity.
  assert (Hbefore : before = pageRun p2 mid)
    by (unfold before; rewrite pageRun_app, Hp2; reflexivity).
  assert (Hok : page_ok before)
    by (apply pageRun_ok, pageLoaded_ok).
  assert (Hphase : phase before = AwaitingModel 0)
    by (rewrite Hbefore; apply awaiting_model_run; [reflexivity | exact Hmid]).
  assert (Hc : controller before = initialController).
  { unfold page_ok in Hok. rewrite Hphase in Hok. apply Hok. }
  assert (Hp := default_settled before loaded Hok Hphase). fold p in Hp.
  assert (Hw : w = snd (loadModel_resume defaultModel loaded w0))
    by (unfold w; rewrite Hp; reflexivity).
  split; [exact Hphase|].
  rewrite Hp. cbn [phase animationLoop listeners controller].
  split; [reflexivity|]. split; [reflexivity|].
  split; [reflexivity|]. split; [reflexivity|]. split; [reflexivity|].
  split; [reflexivity|]. split; [reflexivity|]. split; [exact Hc|].
  split; [|split].
  - intros e ->. rewrite Hw, loadModel_resume_rejected. cbn [snd].
    repeat split.
  - intros g ->. rewrite Hw, loadModel_resume_fulfilled. cbn [snd].
    cbn [consoleErrors sceneChildren diamond].
    split; [reflexivity|]. split; [apply children_add_In | reflexivity].
  - intros picks ->.
    assert (Hw0 : w0 = mkWorld None [plane] []).
    { unfold w0. rewrite Hbefore, menu_changes by reflexivity.
      unfold withRuntime, p2. cbn [runtime].
      destruct (calls_without_diamond picks rt2 eq_refl) as (Hsame & _ & _).
      rewrite Hsame. reflexivity. }
    rewrite Hw, Hw0. split.
    + intros e ->. rewrite loadModel_resume_rejected. simpl. auto.
    + intros g ->. rewrite loadModel_resume_fulfilled.
      unfold attachedModels. cbn [snd consoleErrors sceneChildren diamond].
      split; [reflexivity|]. split; [|reflexivity].
      unfold children_add. rewrite filter_app.
      rewrite (filter_remove_nil (modelOf g) [plane] eq_refl). reflexivity.
Qed.

(** A model is picked and its load settles while the default model is
    still loading; then the default model fails to load. *)
Lemma startup_survives_model_failure_witness :
  phase
    (pageStep
       (pageRun pageLoaded
          ([CallMain; HdrSettled (Fulfilled tt) true]
             ++ [MenuChange "/models/dflat.glb"%string;
                 AnimationFrame;
                 ModelSettled 1 (Fulfilled gltfB)]))
       (ModelSettled 0 (Rejected "404 Not Found"%string)))
  = InitDone.
Proof.
  apply (startup_survives_model_failure
           [MenuChange "/models/dflat.glb"%string;
            AnimationFrame;
            ModelSettled 1 (Fulfilled gltfB)]
           (Rejected "404 Not Found"%string)).
  reflexivity.
Defined.

(** X16: [createCheckerboardTexture] throws when the canvas gives no 2D
    context.  Otherwise it returns a texture over a 2 by 2 canvas every
    pixel of which is painted, gray [#999999] on the diagonal and white
    [#ffffff] off it, so that two pixels next to each other in a row or in
    a column differ; the texture repeats in both directions and is
    magnified with the nearest filter. *)
Theorem checkerboard_texture (context2d : bool) :
  (context2d = false ->
   createCheckerboardTexture context2d =
   Throw "Could not get 2D context from canvas"%string) /\
  (context2d = true ->
   exists t : CanvasTexture,
     createCheckerboardTexture context2d = Normal t /\
     canvasWidth (image t) = 2%nat /\ canvasHeight (image t) = 2%nat /\
     (forall px py : nat,
         (px < 2)%nat -> (py < 2)%nat ->
         pixelAt (image t) px py =
         if Nat.eqb px py then Css "#999999" else Css "#ffffff") /\
     wrapS t = RepeatWrapping /\ wrapT t = RepeatWrapping /\
     magFilter t = NearestFilter /\ minFilter t = LinearMipmapLinearFilter /\
     generateMipmaps t = true).
Proof.
  split; [intros ->; reflexivity|]. intros ->.
  eexists. split; [reflexivity|]. split; [reflexivity|]. split; [reflexivity|].
  split.
  - intros px py Hx Hy.
    destruct px as [|[|px]]; [| |lia]; destruct py as [|[|py]]; try lia;
      reflexivity.
  - repeat split.
Qed.

Lemma checkerboard_texture_witness :
  exists t : CanvasTexture,
    createCheckerboardTexture true = Normal t /\
    pixelAt (image t) 1 0 = Css "#ffffff".
Proof.
  destruct (proj2 (checkerboard_texture true) eq_refl)
    as (t & Hmade & _ & _ & Hpixel & _).
  exists t. split; [exact Hmade|]. apply (Hpixel 1%nat 0%nat); lia.
Defined.

Open Scope R_scope.

(** X17: the directions of a drag.  In a viewport of positive height,
    with the target polar angle within its limits, moving the pointer to
    the right never raises the target azimuth and to the left never lowers
    it; moving it down never raises the target polar angle and up never
    lowers it; and a polar angle that sits on a limit stays there when the
    pointer moves further in that direction. *)
Theorem drag_directions (h px py : R) (c : Controller) :
  0 < h ->
  isDragging c = true ->
  0.05 <= phi (targetSpherical c) <= PI - 0.05 ->
  let a := previousMousePosition c in
  let before := targetSpherical c in
  let after := targetSpherical (onDragMove h px py c) in
  (x a <= px -> theta after <= theta before) /\
  (px <= x a -> theta before <= theta after) /\
  (y a <= py -> phi after <= phi before) /\
  (py <= y a -> phi before <= phi after) /\
  (phi before = 0.05 -> y a <= py -> phi after = 0.05) /\
  (phi before = PI - 0.05 -> py <= y a -> phi after = PI - 0.05).
Proof.
  intros Hh Hd [Hlo Hhi] a before after.
  assert (Hk : 0 < PI / h) by (apply Rdiv_lt_0_compat; [apply PI_RGT_0 | exact Hh]).
  unfold after. rewrite (onDragMove_active h px py c Hd).
  cbn [targetSpherical theta phi]. fold a. fold before.
  unfold rotationSpeed, minPolarAngle, maxPolarAngle.
  set (k := PI / h) in *.
  set (v := phi before - (py - y a) * 2 * k).
  assert (Hdown : y a <= py -> v <= phi before) by (intros H; unfold v; nra).
  assert (Hup : py <= y a -> phi before <= v) by (intros H; unfold v; nra).
  split; [intros H; nra|]. split; [intros H; nra|].
  split; [|split; [|split]].
  - intros H. apply Rmax_lub; [exact Hlo|].
    apply Rle_trans with v; [apply Rmin_r | apply Hdown, H].
  - intros H. apply Rle_trans with (Rmin (PI - 0.05) v); [|apply Rmax_r].
    apply Rmin_glb; [exact Hhi | apply Hup, H].
  - intros Heq H. apply Rmax_left.
    apply Rle_trans with v; [apply Rmin_r|]. rewrite <- Heq. apply Hdown, H.
  - intros Heq H. rewrite Rmin_left by (rewrite <- Heq; apply Hup, H).
    apply Rmax_right. lra.
Qed.

Lemma drag_directions_witness :
  phi (targetSpherical (onDragMove 800 150 180 draggingController))
  <= phi (targetSpherical draggingController).
Proof.
  apply (drag_directions 800 150 180 draggingController).
  - lra.
  - reflexivity.
  - simpl. pose proof PI2_1. lra.
  - simpl. lra.
Defined.

Close Scope R_scope.
